(** * tethne.analyze.corpus: burstness automaton, fan-out and sigma

    A shallow embedding of [src/tethne/analyze/corpus.py]:
    [_forward], [feature_burstness], [feature_burstness_wrapper],
    [burstness] and [sigma].

    Conventions.
    - A Python computation that may raise is a value of [py A]:
      [Ok a] is a normal return, [Raise] an exception.  A Python value
      that may be [None] is an [option].
    - mpmath numbers are kept abstract behind the interface [MpMath];
      the functions are defined once for every implementation of it.
    - A list object that is mutated in place ([dates]) is passed in and
      handed back: the second component of a result is the content of
      the caller's list after the call. *)

From Stdlib Require Import ZArith List Lia QArith Reals Lra Qreals.
From stdpp Require Import base option list gmap strings sorting.

Local Open Scope Z_scope.

(** ** Python exceptions *)

Inductive py (A : Type) : Type :=
  | Ok (a : A)
  | Raise.
Arguments Ok {A} a.
Arguments Raise {A}.

Global Instance py_ret : MRet py := λ A a, Ok a.
Global Instance py_bind : MBind py := λ A B f m,
  match m with Ok a => f a | Raise => Raise end.

(** [l[i]] for [0 <= i]: IndexError outside the list. *)
Definition py_index {A} (l : list A) (i : nat) : py A :=
  match l !! i with Some x => Ok x | None => Raise end.

(** [l[-1]]: IndexError on the empty list. *)
Definition py_last {A} (l : list A) : py A :=
  match last l with Some x => Ok x | None => Raise end.

(** [d[key]] on a dict: KeyError when the key is absent. *)
Definition py_getitem `{Countable K} {A} (d : gmap K A) (key : K) : py A :=
  match d !! key with Some x => Ok x | None => Raise end.

(** [for x in l: s = body(x, s)], stopping at the first exception. *)
Fixpoint for_each {A S} (body : A → S → py S) (l : list A) (s : S) : py S :=
  match l with
  | [] => Ok s
  | x :: l => s' ← body x s; for_each body l s'
  end.

(** [try: e  except: handler]. *)
Definition try_except {A} (e : py A) (handler : A) : A :=
  match e with Ok a => a | Raise => handler end.

(** ** The part of mpmath the module uses

    The interface holds the values the decoder computes on a gap
    sequence of positive total: real numbers, infinities and nan, any
    two of which Python can compare.  [mp.ln] of a negative number is a
    complex number, which has no order; it comes from a negative rate
    only, that is from gaps of negative total or from a negative [s].
    Complex values are not among the values of the interface, and the
    comparisons of [min] and [argmin] are total. *)

Class MpMath (mpf : Type) := {
  mpf_of_Z : Z → mpf;              (* mp.mpf(n) for an int n; mp.mpf(1.) is [mpf_of_Z 1] *)
  mpf_of_Q : Q → mpf;              (* a float literal, given by its decimal value *)
  mpf_inf : mpf;                   (* mp.mpf("inf") *)
  mpf_add : mpf → mpf → mpf;
  mpf_mul : mpf → mpf → mpf;
  mpf_div : mpf → mpf → mpf;       (* a / b for b nonzero *)
  mpf_is_zero : mpf → bool;        (* b == 0 *)
  mpf_lt : mpf → mpf → bool;       (* a < b, as used by min *)
  mpf_pow : mpf → nat → py mpf;    (* s ** i *)
  mpf_exp : mpf → py mpf;          (* mp.exp *)
  mpf_ln : mpf → py mpf;           (* mp.ln *)
}.

(** [a / b]: ZeroDivisionError when [b] is zero. *)
Definition mpf_truediv `{MpMath mpf} (a b : mpf) : py mpf :=
  if mpf_is_zero b then Raise else Ok (mpf_div a b).

(** ** Event-sequence builder (feature_burstness, first half) *)

Section builder.
Context `{MpMath mpf}.

(** One pass of [for n in range(count): X_.append(gap); dates.append(year)]. *)
Definition append_gaps (count : nat) (gap : mpf) (year : Z)
      (st : list mpf * list Z) : list mpf * list Z :=
    foldl (λ st _, (st.1 ++ [gap], st.2 ++ [year])) st (seq 0 count).

(** The body of [for year, N in zip(years, values)].  In the branches
    that divide, [N > 1], so the divisors [mpf(N)] and [mpf(N - 1)] are
    not zero. *)
Definition occurrence (yN : Z * Z) (st : list mpf * list Z)
      : py (list mpf * list Z) :=
    let '(year, N) := yN in
    if N =? 0 then Ok st
    else if 1 <? N then
      last_date ← py_last st.2;
      if year =? last_date + 1 then
        Ok (append_gaps (Z.to_nat N)
              (mpf_div (mpf_of_Z 1) (mpf_of_Z N)) year st)
      else
        Ok (append_gaps (Z.to_nat (N - 1))
              (mpf_div (mpf_of_Z 1) (mpf_of_Z (N - 1))) year
              (st.1 ++ [mpf_of_Z (year - last_date)], st.2 ++ [year]))
    else
      last_date ← py_last st.2;
      Ok (st.1 ++ [mpf_of_Z (year - last_date)], st.2 ++ [year]).

(** [X_] and [dates] after the loop over the distribution. *)
Definition event_gaps (dates : list Z) (years values : list Z)
      : py (list mpf * list Z) :=
    for_each occurrence (zip years values) ([mpf_of_Z 1], dates).

(** [[x*100 for x in X_]], the sequence handed to [_forward]. *)
Definition scale_gaps (X_ : list mpf) : list mpf :=
    map (λ x, mpf_mul x (mpf_of_Z 100)) X_.

(** The gap sequence in the words of the specification (section 4.1),
    for comparison with [event_gaps]. *)
Fixpoint spec_gaps (previous_date : Z) (dist : list (Z * Z)) : list mpf :=
    match dist with
    | [] => []
    | (date, count) :: dist =>
      if 0 <? count then
        (if count =? 1 then [mpf_of_Z (date - previous_date)]
         else if date =? previous_date + 1 then
           replicate (Z.to_nat count)
             (mpf_div (mpf_of_Z 1) (mpf_of_Z count))
         else
           mpf_of_Z (date - previous_date) ::
           replicate (Z.to_nat (count - 1))
             (mpf_div (mpf_of_Z 1) (mpf_of_Z (count - 1))))
        ++ spec_gaps date dist
      else spec_gaps previous_date dist
    end.

Definition spec_gap_sequence (padding : Z) (dist : list (Z * Z)) : list mpf :=
    map (λ x, mpf_mul x (mpf_of_Z 100)) (mpf_of_Z 1 :: spec_gaps padding dist).

(** The dates one distribution appends to [dates]: one entry per
    generated gap. *)
Definition event_dates (dist : list (Z * Z)) : list Z :=
    flat_map (λ '(year, N),
      if N =? 0 then []
      else if 1 <? N then replicate (Z.to_nat N) year
      else [year]) dist.

(** The dates a run of distributions appends, one after the other. *)
Definition appended_dates (fds : list (list Z * list Z)) : list Z :=
  flat_map (λ fd, event_dates (zip fd.1 fd.2)) fds.
End builder.

(** ** Burst state decoder (_forward) *)

Section decoder.
Context `{MpMath mpf}.

(** Python's [sum]: starts from the int 0. *)
Definition py_sum (X : list mpf) : mpf := foldl mpf_add (mpf_of_Z 0) X.

(** Python's [min] on a list of values that can be compared: the first
    least element; ValueError on the empty list. *)
Definition py_min (l : list mpf) : py mpf :=
    match l with
    | [] => Raise
    | x :: l => Ok (foldl (λ m y, if mpf_lt y m then y else m) x l)
    end.

(** Modelled from the spec: [tethne.utilities.argmin] is imported but
    not part of the sources at hand.  Section 4.2: the state minimising
    the column, ties broken by the smallest index.  Without any state
    there is nothing to return, and the helper raises.  A column of equal
    costs, infinite ones included, is a tie like any other. *)
Fixpoint argmin_from (i_min : nat) (m : mpf) (i : nat) (l : list mpf) : nat :=
    match l with
    | [] => i_min
    | y :: l =>
      if mpf_lt y m then argmin_from i y (S i) l else argmin_from i_min m (S i) l
    end.

Definition argmin (l : list mpf) : py nat :=
    match l with
    | [] => Raise
    | x :: l => Ok (argmin_from 0%nat x 1%nat l)
    end.

Variables (X : list mpf) (s gamma : mpf) (k : nat).

Definition alpha (i : nat) : py mpf :=
    rate ← mpf_truediv (mpf_of_Z (Z.of_nat (length X))) (py_sum X);
    s_i ← mpf_pow s i;
    Ok (mpf_mul rate s_i).

Definition tau (i j : nat) : py mpf :=
    if (i <? j)%nat then
      ln_n ← mpf_ln (mpf_of_Z (Z.of_nat (length X)));
      Ok (mpf_mul (mpf_mul (mpf_of_Z (Z.of_nat j - Z.of_nat i)) gamma) ln_n)
    else Ok (mpf_of_Z 0).

Definition f (j : nat) (x : mpf) : py mpf :=
    a ← alpha j;
    e ← mpf_exp (mpf_mul (mpf_mul (mpf_of_Z (-1)) a) x);
    Ok (mpf_mul a e).

(** The emission cost [-1 * ln(f(j, X[t]))]. *)
Definition emission (j t : nat) : py mpf :=
    x ← py_index X t;
    fx ← f j x;
    ln_f ← mpf_ln fx;
    Ok (mpf_mul (mpf_of_Z (-1)) ln_f).

(** [C(j, t)], reading the table [C_values] as it is at the time of the
    call. *)
Definition C (C_values : list (list mpf)) (j t : nat) : py mpf :=
    if (j =? 0)%nat && (t =? 0)%nat then Ok (mpf_of_Z 0)
    else if (t =? 0)%nat then Ok mpf_inf
    else
      candidates ← mapM (λ l,
          row ← py_index C_values l;
          c ← py_index row (t - 1);
          tau_lj ← tau l j;
          Ok (mpf_add c tau_lj)) (seq 0 k);
      C_tau ← py_min candidates;
      e ← emission j t;
      Ok (mpf_add e C_tau).

(** [C_values[j][t] = v]. *)
Definition set_cell (C_values : list (list mpf)) (j t : nat) (v : mpf)
      : list (list mpf) :=
    alter (λ row, <[t := v]> row) j C_values.

(** The body of the double loop: the guarded assignment of one cell. *)
Definition fill_cell (j : nat) (C_values : list (list mpf)) (t : nat)
      : list (list mpf) :=
    set_cell C_values j t (try_except (C C_values j t) mpf_inf).

Definition fill_row (C_values : list (list mpf)) (j : nat) : list (list mpf) :=
    foldl (fill_cell j) C_values (seq 0 (length X)).

(** The table built in advance, every cell the int 0. *)
Definition initial_table : list (list mpf) :=
    replicate k (replicate (length X) (mpf_of_Z 0)).

(** [C_values] after [for j in range(k): for t in range(len(X))]. *)
Definition cost_table : list (list mpf) :=
    foldl fill_row initial_table (seq 0 k).

(** [C_values] at the moment the loop reaches the cell [(j, t)]: the
    rows before [j] are filled, and so is row [j] up to column [t]. *)
Definition table_before (j t : nat) : list (list mpf) :=
    foldl (fill_cell j) (foldl fill_row initial_table (seq 0 j)) (seq 0 t).

(** Reading [C_values[j][t]]. *)
Definition cell (C_values : list (list mpf)) (j t : nat) : option mpf :=
    row ← C_values !! j; row !! t.

(** The shape of a table: the lengths of its rows. *)
Definition shape (C_values : list (list mpf)) : list nat := length <$> C_values.

(** [[argmin([c[t] for c in C_values]) for t in range(n)]]. *)
Definition extract_states (C_values : list (list mpf)) : py (list nat) :=
    mapM (λ t,
        column ← mapM (λ c, py_index c t) C_values;
        argmin column) (seq 0 (length X)).

Definition _forward : option (list nat) :=
    match extract_states cost_table with
    | Ok states => Some states
    | Raise => None
    end.

(** The recurrence of the specification (section 4.2), cell by cell:
    [C(0,0) = 0], [C(j,0) = inf] for [j > 0], and for [t > 0] the
    emission cost plus the least of [C(l,t-1) + tau(l,j)] over all
    states [l]. *)
Fixpoint C_spec (t : nat) (j : nat) : py mpf :=
    match t with
    | O => if (j =? 0)%nat then Ok (mpf_of_Z 0) else Ok mpf_inf
    | S t' =>
      candidates ← mapM (λ l,
          c ← C_spec t' l;
          tau_lj ← tau l j;
          Ok (mpf_add c tau_lj)) (seq 0 k);
      C_tau ← py_min candidates;
      e ← emission j t;
      Ok (mpf_add e C_tau)
    end.
End decoder.

(** ** Burstness aggregator (feature_burstness, second half) *)

(** Modelled from the spec: [tethne.utilities.mean] is imported but not
    part of the sources at hand.  Section 4.3: the arithmetic mean of the
    states of a bucket, here an exact rational. *)
Definition mean (values : list nat) : Q :=
  (inject_Z (Z.of_nat (sum_list values)) /
   inject_Z (Z.of_nat (length values)))%Q.

(** A burst series: [(dates, scores)]. *)
Definition series : Type := list Z * list Q.

(** [A = defaultdict(list); for i in range(count): A[dates[i]].append(st[i])]. *)
Definition bin_by_date (count : nat) (dates : list Z) (st : list nat)
    : py (gmap Z (list nat)) :=
  for_each (λ i (A : gmap Z (list nat)),
      d ← py_index dates i;
      state ← py_index st i;
      Ok (<[d := default [] (A !! d) ++ [state]]> A)) (seq 0 count) ∅.

(** The states sharing the date [d]: those [st[i]] with [dates[i] = d],
    in order. *)
Definition states_on (d : Z) (dates : list Z) (st : list nat) : list nat :=
  (filter (λ p, p.1 = d) (zip dates st)).*2.

(** The distinct dates of a list in ascending order. *)
Definition sorted_dates (dates : list Z) : list Z :=
  merge_sort Z.le (elements (list_to_set dates : gset Z)).

(** The score of one bucket: [mean(values)/k] or [mean(values)]. *)
Definition bucket_score (k : nat) (normalize : bool) (values : list nat) : Q :=
  if normalize then (mean values / inject_Z (Z.of_nat k))%Q else mean values.

(** [D = sorted(A.keys()); return D[1:], [A[d] for d in D[1:]]] after the
    buckets were replaced by their scores. *)
Definition burst_series (k : nat) (normalize : bool) (A : gmap Z (list nat))
    : py series :=
  let A' : gmap Z Q := bucket_score k normalize <$> A in
  let D := merge_sort Z.le ((map_to_list A').*1) in
  scores ← mapM (py_getitem A') (tail D);
  Ok (tail D, scores).

(** ** The corpus collaborator *)

Record Corpus := {
  (* min(corpus.indices['date'].keys()) *)
  min_date : Z;
  (* corpus.feature_distribution(featureset_name, feature) = (years, values) *)
  corpus_feature_distribution : string → string → list Z * list Z;
  (* the names in T = corpus.top_features(featureset_name, ...), in the order
     of T: what list(zip( *T))[0] holds when T is not empty (perslice at its
     default, False) *)
  top_feature_names : string → list string;
}.

Section burstness.
Context `{MpMath mpf}.

(** [feature_burstness].  The result is the returned value ([None] when
    no state sequence was found) and the content of the [dates] list
    after the call: the caller's own list when one was passed in.  The
    calls that index the corpus do not bear on the result and are left
    out. *)
Definition feature_burstness (corpus : option Corpus)
      (featureset_name feature : string) (k : nat) (normalize : bool)
      (s gamma : mpf) (dates : option (list Z))
      (feature_distribution : option (list Z * list Z))
      : py (option series * list Z) :=
    dates ← match dates, corpus with
            | Some dates, _ => Ok dates
            | None, Some corpus => Ok [min_date corpus - 1]
            | None, None => Raise
            end;
    '(years, values) ← match feature_distribution, corpus with
            | Some fd, _ => Ok fd
            | None, Some corpus =>
              Ok (corpus_feature_distribution corpus featureset_name feature)
            | None, None => Raise
            end;
    '(X_, dates) ← event_gaps dates years values;
    match _forward (scale_gaps X_) s gamma k with
    | None => Ok (None, dates)
    | Some st =>
      A ← bin_by_date (length X_) dates st;
      result ← burst_series k normalize A;
      Ok (Some result, dates)
    end.

(** The tuple handed to a worker. *)
Record param := {
    p_nr : nat;
    p_dates : list Z;
    p_feature_distributions : list (list Z * list Z);
    p_featureset_name : string;
    p_features : list string;
    p_k : nat;
    p_normalize : bool;
    p_s : mpf;
    p_gamma : mpf;
  }.

(** The body of the loop of [feature_burstness_wrapper]: the call receives
  the one [dates] list of the tuple, in the state the calls before it
  left it in. *)
Definition wrapper_step (p : param) (item : string * (list Z * list Z))
    (state : gmap string (option series) * list Z)
    : py (gmap string (option series) * list Z) :=
  let '(feature, feature_distribution) := item in
  let '(B, dates) := state in
  '(result, dates) ← feature_burstness None (p_featureset_name p) feature
      (p_k p) (p_normalize p) (p_s p) (p_gamma p)
      (Some dates) (Some feature_distribution);
  Ok (<[feature := result]> B, dates).

(** [feature_burstness_wrapper].  The result is [B] and the content of
    the [dates] list of the tuple after the loop. *)
Definition feature_burstness_wrapper (p : param)
    : py (gmap string (option series) * list Z) :=
  for_each (wrapper_step p)
    (zip (p_features p) (p_feature_distributions p))
    (∅, p_dates p).

(** [l[a:b]] for [0 <= a <= b]. *)
Definition py_slice {A} (l : list A) (a b : nat) : list A :=
    take (b - a) (drop a l).

(** The decode parameters [1.1] and [1.] written in [burstness]. *)
Definition s_default : mpf := mpf_of_Q (11 # 10).
Definition gamma_default : mpf := mpf_of_Z 1.

(** [params] as built by the loop [for i in range(workers+1)]. *)
Definition params (corpus : Corpus) (featureset_name : string)
      (features : list string) (k workers : nat) (normalize : bool)
      : list param :=
    let len_per_worker := (length features / workers)%nat in
    let dates := [min_date corpus - 1] in
    map (λ i,
      let chunk :=
        py_slice features (i * len_per_worker) ((i + 1) * len_per_worker) in
      {| p_nr := i;
         p_dates := dates;
         p_feature_distributions :=
           map (corpus_feature_distribution corpus featureset_name) chunk;
         p_featureset_name := featureset_name;
         p_features := chunk;
         p_k := k;
         p_normalize := normalize;
         p_s := s_default;
         p_gamma := gamma_default |}) (seq 0 (workers + 1)).

(** [burstness].  [s] and [gamma] are the decode parameters of
    [kwargs].  An empty [features] is replaced by the names of the top
    features, and indexing the unzipped list raises when there is none.
    With [workers = 1] every feature is decoded by a call of
    its own; otherwise the tuples of [params] are mapped over a pool,
    each worker receiving its tuple as a copy, and the partial maps are
    merged in order with [B.update]. *)
Definition burstness (corpus : Corpus) (featureset_name : string)
      (features : list string) (k workers : nat) (normalize : bool)
      (s gamma : mpf) : py (gmap string (option series)) :=
    features ←
      (if (length features =? 0)%nat then
         (* list(zip( *T))[0]: IndexError when T is empty *)
         match top_feature_names corpus featureset_name with
         | [] => Raise
         | names => Ok names
         end
       else Ok features);
    if (workers =? 1)%nat then
      for_each (λ feature (B : gmap string (option series)),
          '(result, _) ← feature_burstness (Some corpus) featureset_name
              feature k normalize s gamma None None;
          Ok (<[feature := result]> B)) features ∅
    else if (workers =? 0)%nat then Raise
    else
      Bs ← mapM (λ p, '(B, _) ← feature_burstness_wrapper p; Ok B)
             (params corpus featureset_name features k workers normalize);
      Ok (foldl (λ (B tmp_B : gmap string (option series)), tmp_B ∪ B) ∅ Bs).
End burstness.

(** ** Sigma calculator (sigma, the loop over the time slices) *)

(** A time-sliced graph: its node set. *)
Record Graph := { graph_nodes : gset nat }.

Record GraphCollection := {
  (* G.items(): the slices by key; the keys of a dict are distinct *)
  G_items : list (Z * Graph);
  (* G.node_lookup: node label to integer index *)
  node_lookup : gmap string nat;
}.

(** [dict(pairs)]: a later pair replaces an earlier one with the same key. *)
Definition py_dict `{Countable K} {A} (pairs : list (K * A)) : gmap K A :=
  foldl (λ d kv, <[kv.1 := kv.2]> d) ∅ pairs.

Section sigma.
(** Python floats and the three operations of the formula. *)
Context {float : Type}.
Variables (float_add float_sub : float → float → float).
Variable float_pow : float → Q → float.
Variable float_one : float.
(** networkx's [betweenness_centrality], a collaborator. *)
Variable betweenness_centrality : Graph → gmap nat float.

(** The body of [for n_, burst in B.items()] for the slice [key]. *)
Definition sigma_node (G : GraphCollection) (key : Z) (graph : Graph)
      (centrality : gmap nat float) (item : string * option series)
      (sigma : gmap nat float) : py (gmap nat float) :=
    let '(n_, burst) := item in
    (* unpacking burst raises TypeError when burst is None *)
    burst ← match burst with
            | Some (dates, scores) => Ok (py_dict (zip dates scores))
            | None => Raise
            end;
    n ← py_getitem (node_lookup G) n_;
    if bool_decide (n ∈ graph_nodes graph) && bool_decide (is_Some (burst !! key)) then
      c ← py_getitem centrality n;
      b ← py_getitem burst key;
      Ok (<[n := float_sub (float_pow (float_add c float_one) b) float_one]> sigma)
    else Ok sigma.

(** What the body assigns for an item of [B.items()], if anything: the
  node index and its sigma value. *)
Definition item_value (G : GraphCollection) (key : Z) (graph : Graph)
    (centrality : gmap nat float) (item : string * option series)
    : option (nat * float) :=
  match item with
  | (n_, Some (dates, scores)) =>
    n ← node_lookup G !! n_;
    if bool_decide (n ∈ graph_nodes graph) then
      b ← py_dict (zip dates scores) !! key;
      c ← centrality !! n;
      Some (n, float_sub (float_pow (float_add c float_one) b) float_one)
    else None
  | (_, None) => None
  end.

(** The variable [Sigma] after the loop over [G.items()]: for every
      slice key the dict [sigma] of that slice. *)
Definition Sigma (G : GraphCollection) (B : gmap string (option series))
      : py (gmap Z (gmap nat float)) :=
    for_each (λ '(key, graph) (Sigma : gmap Z (gmap nat float)),
        let centrality := betweenness_centrality graph in
        sigma ← for_each (sigma_node G key graph centrality) (map_to_list B) ∅;
        Ok (<[key := sigma]> Sigma)) (G_items G) ∅.
End sigma.

(** [inverse] after the loop that inverts [Sigma]: for every node the
    dict of its sigma values by slice key.  [inverse] is a defaultdict of
    dicts, and every [result] is a dict, which has [__iter__]. *)
Definition inverse {float} (Sigma : gmap Z (gmap nat float))
    : gmap nat (gmap Z float) :=
  foldl (λ inverse '(gname, result),
      foldl (λ (inverse : gmap nat (gmap Z float)) '(n, val),
          <[n := <[gname := val]> (default ∅ (inverse !! n))]> inverse)
        inverse (map_to_list result))
    ∅ (map_to_list Sigma).

(** ** mpmath at unbounded precision: the extended reals

    An implementation of [MpMath] in which every operation is exact: a
    number is a real, an infinity or nan.  It serves to evaluate the
    functions above on concrete inputs. *)

Inductive xreal : Type :=
  | Fin (r : R)
  | PInf
  | NInf
  | NaN.

Definition xreal_sign (r : R) : comparison :=
  if Rlt_dec 0 r then Gt else if Rlt_dec r 0 then Lt else Eq.

Definition xreal_add (a b : xreal) : xreal :=
  match a, b with
  | Fin x, Fin y => Fin (x + y)
  | NaN, _ | _, NaN => NaN
  | PInf, NInf | NInf, PInf => NaN
  | PInf, _ | _, PInf => PInf
  | NInf, _ | _, NInf => NInf
  end.

Definition xreal_scale_inf (positive : bool) (r : R) : xreal :=
  match xreal_sign r with
  | Gt => if positive then PInf else NInf
  | Lt => if positive then NInf else PInf
  | Eq => NaN
  end.

Definition xreal_mul (a b : xreal) : xreal :=
  match a, b with
  | Fin x, Fin y => Fin (x * y)
  | NaN, _ | _, NaN => NaN
  | PInf, Fin r | Fin r, PInf => xreal_scale_inf true r
  | NInf, Fin r | Fin r, NInf => xreal_scale_inf false r
  | PInf, PInf | NInf, NInf => PInf
  | PInf, NInf | NInf, PInf => NInf
  end.

Definition xreal_div (a b : xreal) : xreal :=
  match a, b with
  | Fin x, Fin y => Fin (x / y)
  | NaN, _ | _, NaN => NaN
  | Fin _, (PInf | NInf) => Fin 0
  | PInf, Fin r => xreal_scale_inf true r
  | NInf, Fin r => xreal_scale_inf false r
  | (PInf | NInf), (PInf | NInf) => NaN
  end.

Definition xreal_is_zero (a : xreal) : bool :=
  match a with
  | Fin r => if Req_dec_T r 0 then true else false
  | _ => false
  end.

Definition xreal_lt (a b : xreal) : bool :=
  match a, b with
  | Fin x, Fin y => if Rlt_dec x y then true else false
  | NaN, _ | _, NaN => false
  | NInf, (Fin _ | PInf) => true
  | Fin _, PInf => true
  | _, _ => false
  end.

Definition xreal_pow (a : xreal) (i : nat) : py xreal :=
  match a with
  | Fin r => Ok (Fin (r ^ i))
  | NaN => Ok NaN
  | PInf => Ok (if (i =? 0)%nat then Fin 1 else PInf)
  | NInf => Ok (if (i =? 0)%nat then Fin 1 else if Nat.even i then PInf else NInf)
  end.

Definition xreal_exp (a : xreal) : py xreal :=
  match a with
  | Fin r => Ok (Fin (exp r))
  | PInf => Ok PInf
  | NInf => Ok (Fin 0)
  | NaN => Ok NaN
  end.

(** [mp.ln] of a negative number is a complex number, which the
    extended reals do not hold: the logarithm stops there.  No gap
    sequence evaluated below has a negative rate. *)
Definition xreal_ln (a : xreal) : py xreal :=
  match a with
  | Fin r =>
    match xreal_sign r with
    | Gt => Ok (Fin (ln r))
    | Eq => Ok NInf
    | Lt => Raise
    end
  | PInf => Ok PInf
  | NInf => Raise
  | NaN => Ok NaN
  end.

Global Instance xreal_mpmath : MpMath xreal := {|
  mpf_of_Z z := Fin (IZR z);
  mpf_of_Q q := Fin (Q2R q);
  mpf_inf := PInf;
  mpf_add := xreal_add;
  mpf_mul := xreal_mul;
  mpf_div := xreal_div;
  mpf_is_zero := xreal_is_zero;
  mpf_lt := xreal_lt;
  mpf_pow := xreal_pow;
  mpf_exp := xreal_exp;
  mpf_ln := xreal_ln;
|}.

(** ** Example inputs *)

(** A corpus with one feature, seen once in 2000 and once in 2005. *)
Definition corpus_x : Corpus := {|
  min_date := 2000;
  corpus_feature_distribution := λ _ _, ([2000; 2005], [1; 1]);
  top_feature_names := λ _, [];
|}.

(** The sigma scenario of the specification: one node in two consecutive
    slices, centrality 0.2 in both, bursts 0 and 0.5. *)
Definition G_two_slices : GraphCollection := {|
  G_items := [(2000, {| graph_nodes := {[0%nat]} |});
              (2001, {| graph_nodes := {[0%nat]} |})];
  node_lookup := {["x" := 0%nat]};
|}.

Definition B_two_slices : gmap string (option series) :=
  {["x" := Some ([2000; 2001], [0%Q; (1 # 2)%Q])]}.

Definition centrality_two_slices (graph : Graph) : gmap nat R :=
  {[0%nat := (2 / 10)%R]}.

(** Three gaps of one year each, scaled by 100, decoded with two states
    and the default parameters. *)
Definition X_three : list xreal := [Fin 100; Fin 100; Fin 100].

(** A corpus with two features seen once each, "a" in 2000 and "b" in
    2005; any other feature never occurs. *)
Definition corpus_ab : Corpus := {|
  min_date := 2000;
  corpus_feature_distribution := λ _ feature,
    if String.eqb feature "a" then ([2000], [1])
    else if String.eqb feature "b" then ([2005], [1])
    else ([], []);
  top_feature_names := λ _, [];
|}.

(** * Properties *)

(** ** The exception monad *)

Lemma for_each_app {A S} (body : A → S → py S) (l1 l2 : list A) (s : S) :
  for_each body (l1 ++ l2) s = (s' ← for_each body l1 s; for_each body l2 s').
Proof.
  revert s. induction l1 as [|x l1 IH]; intros s; simpl; [done|].
  destruct (body x s) as [s'|]; simpl; [apply IH|done].
Qed.

Lemma py_last_snoc {A} (l : list A) (x : A) : py_last (l ++ [x]) = Ok x.
Proof. unfold py_last. by rewrite last_snoc. Qed.

Lemma py_index_lt {A} (l : list A) (i : nat) :
  (i < length l)%nat → ∃ x, l !! i = Some x ∧ py_index l i = Ok x.
Proof.
  intros Hi. destruct (lookup_lt_is_Some_2 l i Hi) as [x Hx].
  exists x. unfold py_index. by rewrite Hx.
Qed.

(** ** Event-sequence builder *)

Section builder_facts.
Context `{MpMath mpf}.

Lemma append_gaps_replicate (count : nat) (gap : mpf) (year : Z)
      (X_ : list mpf) (dates : list Z) :
    append_gaps count gap year (X_, dates)
    = (X_ ++ replicate count gap, dates ++ replicate count year).
Proof.
    unfold append_gaps. induction count as [|count IH].
    - simpl. by rewrite !app_nil_r.
    - rewrite seq_S, foldl_app, IH. simpl.
      rewrite <- !app_assoc.
      by rewrite <- !replicate_cons_app.
Qed.

Lemma spec_gaps_cons (previous year N : Z) (dist : list (Z * Z)) :
    spec_gaps previous ((year, N) :: dist)
    = spec_gaps previous [(year, N)]
      ++ spec_gaps (if 0 <? N then year else previous) dist.
Proof. simpl. destruct (0 <? N); [by rewrite !app_nil_r|done]. Qed.

(** One distribution entry: the state after the loop body. *)
Lemma occurrence_step (year N previous : Z) (X_ : list mpf) (dates : list Z) :
    last dates = Some previous →
    ∃ gaps,
      occurrence (year, N) (X_, dates)
        = Ok (X_ ++ gaps, dates ++ event_dates [(year, N)])
      ∧ length gaps = length (event_dates [(year, N)])
      ∧ last (dates ++ event_dates [(year, N)])
        = Some (if N =? 0 then previous else year)
      ∧ (0 ≤ N → gaps = spec_gaps previous [(year, N)]).
Proof.
    intros Hlast. unfold occurrence, event_dates, py_last. simpl.
    rewrite Hlast. simpl. rewrite !app_nil_r.
    destruct (Z.eqb_spec N 0) as [->|HN0]; simpl.
    { exists []. rewrite !app_nil_r. done. }
    destruct (Z.ltb_spec 1 N) as [HN1|HN1]; simpl.
    - assert ((0 <? N) = true) as -> by lia.
      assert ((N =? 1) = false) as -> by lia.
      assert (Hpos : ∃ m, Z.to_nat N = S m) by (exists (Z.to_nat N - 1)%nat; lia).
      destruct Hpos as [m Hm].
      assert (Hend : last (dates ++ replicate (Z.to_nat N) year) = Some year).
      { rewrite Hm, replicate_S_end, app_assoc. apply last_snoc. }
      destruct (Z.eqb_spec year (previous + 1)) as [Hc|Hc].
      + exists (replicate (Z.to_nat N) (mpf_div (mpf_of_Z 1) (mpf_of_Z N))).
        rewrite append_gaps_replicate, !length_replicate. done.
      + exists (mpf_of_Z (year - previous) ::
                replicate (Z.to_nat (N - 1)) (mpf_div (mpf_of_Z 1) (mpf_of_Z (N - 1)))).
        rewrite append_gaps_replicate. simpl.
        rewrite <- !app_assoc, !length_replicate. simpl.
        replace (Z.to_nat N) with (S (Z.to_nat (N - 1))) in * by lia.
        done.
    - exists [mpf_of_Z (year - previous)]. split; [done|]. split; [done|].
      split; [apply last_snoc|].
      intros HN. assert (N = 1) as -> by lia. done.
Qed.

(** The whole loop: what it appends to [X_] and to [dates]. *)
Lemma event_loop (dist : list (Z * Z)) (previous : Z) (X_ : list mpf)
      (dates : list Z) :
    last dates = Some previous →
    ∃ gaps,
      for_each occurrence dist (X_, dates)
        = Ok (X_ ++ gaps, dates ++ event_dates dist)
      ∧ length gaps = length (event_dates dist)
      ∧ (Forall (λ yN, 0 ≤ yN.2) dist → gaps = spec_gaps previous dist).
Proof.
    revert previous X_ dates.
    induction dist as [|[year N] dist IH]; intros previous X_ dates Hlast.
    { exists []. simpl. by rewrite !app_nil_r. }
    destruct (occurrence_step year N previous X_ dates Hlast)
      as (g1 & Hstep & Hlen1 & Hlast1 & Hspec1).
    destruct (IH _ (X_ ++ g1) _ Hlast1) as (g2 & Hrest & Hlen2 & Hspec2).
    assert (Hcons : event_dates ((year, N) :: dist)
                    = event_dates [(year, N)] ++ event_dates dist).
    { unfold event_dates. simpl. by rewrite app_nil_r. }
    exists (g1 ++ g2). cbn [for_each]. rewrite Hstep. cbn -[event_dates spec_gaps].
    rewrite Hrest, Hcons, <- !app_assoc. split; [done|]. split.
    { rewrite !length_app. lia. }
    intros Hall. inversion Hall as [|?? HN Hall']; subst. simpl in HN.
    rewrite spec_gaps_cons, (Hspec2 Hall'), (Hspec1 HN).
    do 2 f_equal. destruct (Z.eqb_spec N 0), (Z.ltb_spec 0 N); done || lia.
Qed.
End builder_facts.

(** ** The cost table *)

Lemma mapM_Ok {A B} (f : A → py B) (l : list A) (ys : list B) :
  mapM f l = Ok ys ↔ Forall2 (λ x y, f x = Ok y) l ys.
Proof.
  revert ys. induction l as [|x l IH]; intros ys; simpl.
  - split; [intros [= <-]; constructor|by inversion 1].
  - split.
    + destruct (f x) as [y|] eqn:Hfx; simpl; [|done].
      destruct (mapM f l) as [k|] eqn:Hl; simpl; [|done].
      intros [= <-]. constructor; [done|]. by apply IH.
    + inversion 1 as [|? y ? k Hfx Hall]; subst.
      rewrite Hfx. simpl. apply IH in Hall. rewrite Hall. done.
Qed.

Lemma mapM_total {A B} (f : A → py B) (l : list A) :
  Forall (λ x, ∃ y, f x = Ok y) l → ∃ ys, mapM f l = Ok ys.
Proof.
  induction 1 as [|x l [y Hy] _ [ys Hys]]; simpl.
  - by exists [].
  - rewrite Hy. simpl. rewrite Hys. by eexists.
Qed.

Section table_facts.
Context `{MpMath mpf}.
Variables (X : list mpf) (s gamma : mpf) (k : nat).

Local Abbreviation n := (length X).
Local Abbreviation C' := (C X s gamma k).
Local Abbreviation fill_cell' := (fill_cell X s gamma k).
Local Abbreviation fill_row' := (fill_row X s gamma k).
Local Abbreviation cost_table' := (cost_table X s gamma k).
Local Abbreviation table_before' := (table_before X s gamma k).
Local Abbreviation initial_table' := (initial_table X k).

Lemma shape_set_cell (C_values : list (list mpf)) j t v :
    shape (set_cell C_values j t v) = shape C_values.
Proof.
    unfold shape, set_cell. apply list_eq. intros i.
    rewrite !list_lookup_fmap.
    destruct (decide (i = j)) as [->|Hne].
    - rewrite list_lookup_alter_eq. destruct (C_values !! j); simpl; [|done].
      by rewrite length_insert.
    - by rewrite list_lookup_alter_ne.
Qed.

Lemma shape_fill_cells j C_values ts :
    shape (foldl (fill_cell' j) C_values ts) = shape C_values.
Proof.
    revert C_values. induction ts as [|t ts IH]; intros C_values; simpl; [done|].
    rewrite IH. apply shape_set_cell.
Qed.

Lemma shape_fill_rows C_values js :
    shape (foldl fill_row' C_values js) = shape C_values.
Proof.
    revert C_values. induction js as [|j js IH]; intros C_values; simpl; [done|].
    rewrite IH. apply shape_fill_cells.
Qed.

Lemma shape_initial : shape initial_table' = replicate k n.
Proof.
    unfold shape, initial_table.
    rewrite fmap_replicate. by rewrite length_replicate.
Qed.

Lemma shape_cost_table : shape cost_table' = replicate k n.
Proof. unfold cost_table. by rewrite shape_fill_rows, shape_initial. Qed.

Lemma shape_table_before j t : shape (table_before' j t) = replicate k n.
Proof.
    unfold table_before.
    by rewrite shape_fill_cells, shape_fill_rows, shape_initial.
Qed.

Lemma shape_row (C_values : list (list mpf)) j :
    shape C_values = replicate k n → (j < k)%nat →
    ∃ row, C_values !! j = Some row ∧ length row = n.
Proof.
    intros Hshape Hj.
    assert (Hl : shape C_values !! j = Some n)
      by (rewrite Hshape; by apply lookup_replicate_2).
    unfold shape in Hl. rewrite list_lookup_fmap in Hl.
    destruct (C_values !! j) as [row|]; simplify_eq/=. eauto.
Qed.

Lemma cell_set_cell_eq (C_values : list (list mpf)) j t v :
    shape C_values = replicate k n → (j < k)%nat → (t < n)%nat →
    cell (set_cell C_values j t v) j t = Some v.
Proof.
    intros Hshape Hj Ht.
    destruct (shape_row _ _ Hshape Hj) as (row & Hrow & Hlen).
    unfold cell, set_cell. rewrite list_lookup_alter_eq, Hrow. simpl.
    apply list_lookup_insert_eq. lia.
Qed.

Lemma cell_set_cell_ne (C_values : list (list mpf)) j t j' t' v :
    (j, t) ≠ (j', t') →
    cell (set_cell C_values j t v) j' t' = cell C_values j' t'.
Proof.
    intros Hne. unfold cell, set_cell.
    destruct (decide (j = j')) as [<-|Hj].
    - rewrite list_lookup_alter_eq. destruct (C_values !! j); simpl; [|done].
      apply list_lookup_insert_ne. congruence.
    - by rewrite list_lookup_alter_ne.
Qed.

Lemma cell_initial j t :
  (j < k)%nat → (t < n)%nat → cell initial_table' j t = Some (mpf_of_Z 0).
Proof.
  intros Hj Ht. unfold cell, initial_table.
  rewrite lookup_replicate_2 by done. simpl. by apply lookup_replicate_2.
Qed.

(** Filling row [j] leaves the other rows alone. *)
Lemma cell_fill_cells_other (C_values : list (list mpf)) j ts j' t' :
  j' ≠ j → cell (foldl (fill_cell' j) C_values ts) j' t' = cell C_values j' t'.
Proof.
  intros Hne. revert C_values.
  induction ts as [|t ts IH]; intros C_values; simpl; [done|].
  rewrite IH. apply cell_set_cell_ne. congruence.
Qed.

(** Row [j] after the first [m] columns were assigned. *)
Lemma cell_fill_cells (C_values : list (list mpf)) j m t :
  shape C_values = replicate k n → (j < k)%nat → (t < n)%nat →
  cell (foldl (fill_cell' j) C_values (seq 0 m)) j t
  = if decide (t < m)%nat
    then Some (try_except (C' (foldl (fill_cell' j) C_values (seq 0 t)) j t) mpf_inf)
    else cell C_values j t.
Proof.
  intros Hshape Hj Ht. induction m as [|m IH]; [done|].
  rewrite seq_S, foldl_app. simpl. unfold fill_cell at 1.
  destruct (decide (t = m)) as [->|Hne].
  - rewrite cell_set_cell_eq; [|by rewrite shape_fill_cells|done..].
    rewrite decide_True by lia. done.
  - rewrite cell_set_cell_ne by congruence. rewrite IH.
    repeat case_decide; done || lia.
Qed.

(** The table after the first [m] rows were filled. *)
Lemma cell_fill_rows m j t :
  (j < k)%nat → (t < n)%nat →
  cell (foldl fill_row' initial_table' (seq 0 m)) j t
  = if decide (j < m)%nat
    then Some (try_except (C' (table_before' j t) j t) mpf_inf)
    else Some (mpf_of_Z 0).
Proof.
  intros Hj Ht. induction m as [|m IH]; [by apply cell_initial|].
  rewrite seq_S, foldl_app. simpl. unfold fill_row at 1.
  destruct (decide (j = m)) as [->|Hne].
  - rewrite (cell_fill_cells _ m n t);
      [|by rewrite shape_fill_rows, shape_initial|done..].
    rewrite !decide_True by lia. done.
  - rewrite cell_fill_cells_other by done. rewrite IH.
    repeat case_decide; done || lia.
Qed.

(** Every cell of the final table holds what its own guarded assignment
    wrote. *)
Lemma cost_table_cell j t :
  (j < k)%nat → (t < n)%nat →
  cell cost_table' j t = Some (try_except (C' (table_before' j t) j t) mpf_inf).
Proof.
  intros Hj Ht. unfold cost_table.
  rewrite cell_fill_rows by done. by rewrite decide_True.
Qed.

(** What the loop finds in the table when it reaches [(j, t)]: the cells
    assigned so far hold their final value, the others the initial 0. *)
Lemma table_before_cell j t j' t' :
  (j < k)%nat → (j' < k)%nat → (t' < n)%nat →
  cell (table_before' j t) j' t'
  = if decide (j' < j ∨ (j' = j ∧ t' < t))%nat
    then cell cost_table' j' t'
    else Some (mpf_of_Z 0).
Proof.
  intros Hj Hj' Ht'. unfold table_before.
  destruct (decide (j' = j)) as [->|Hne].
  - rewrite cell_fill_cells; [|by rewrite shape_fill_rows, shape_initial|done..].
    destruct (decide (t' < t)%nat).
    + rewrite decide_True by lia. by rewrite cost_table_cell.
    + rewrite decide_False by lia. rewrite cell_fill_rows by done.
      by rewrite decide_False by lia.
  - rewrite cell_fill_cells_other by done. rewrite cell_fill_rows by done.
    destruct (decide (j' < j)%nat).
    + rewrite decide_True by lia. by rewrite cost_table_cell.
    + by rewrite decide_False by lia.
Qed.
End table_facts.

(** ** State extraction *)

Section extraction_facts.
Context `{MpMath mpf}.

Lemma argmin_from_lt (l : list mpf) i_min m i :
  (i_min < i)%nat → (argmin_from i_min m i l < i + length l)%nat.
Proof.
  revert i_min m i. induction l as [|y l IH]; intros i_min m i Hi; simpl; [lia|].
  destruct (mpf_lt y m).
  - specialize (IH i y (S i)). lia.
  - specialize (IH i_min m (S i)). lia.
Qed.

Lemma argmin_Ok (l : list mpf) :
  l ≠ [] → ∃ j, argmin l = Ok j ∧ (j < length l)%nat.
Proof.
  destruct l as [|x l]; [done|]. intros _. eexists. split; [done|].
  simpl. pose proof (argmin_from_lt l 0%nat x 1%nat). lia.
Qed.

Variables (X : list mpf) (s gamma : mpf) (k : nat).

(** A column of a table of the right shape. *)
Lemma column_Ok (C_values : list (list mpf)) t :
  shape C_values = replicate k (length X) → (t < length X)%nat →
  ∃ column, mapM (λ c : list mpf, py_index c t) C_values = Ok column
            ∧ length column = k.
Proof.
  intros Hshape Ht.
  assert (Hrows : Forall (λ c : list mpf, length c = length X) C_values).
  { apply Forall_forall. intros c Hc.
    apply list_elem_of_lookup in Hc as [j Hj].
    assert (Hl : shape C_values !! j = Some (length c))
      by (unfold shape; by rewrite list_lookup_fmap, Hj).
    rewrite Hshape in Hl. by apply lookup_replicate in Hl as [-> _]. }
  assert (Hlen : length C_values = k).
  { apply (f_equal length) in Hshape. unfold shape in Hshape.
    by rewrite length_fmap, length_replicate in Hshape. }
  clear Hshape. subst k.
  induction Hrows as [|c C_values Hc _ IH]; simpl.
  { by exists []. }
  destruct (py_index_lt c t) as (x & _ & ->); [lia|]. simpl.
  destruct IH as (column & -> & Hcol). simpl.
  exists (x :: column). simpl. by rewrite Hcol.
Qed.

Lemma argmin_columns_Ok (C_values : list (list mpf)) (ts : list nat) :
  shape C_values = replicate k (length X) → (0 < k)%nat →
  Forall (λ t, t < length X)%nat ts →
  ∃ states,
    mapM (λ t, column ← mapM (λ c : list mpf, py_index c t) C_values;
               argmin column) ts = Ok states
    ∧ length states = length ts ∧ Forall (λ j, j < k)%nat states.
Proof.
  intros Hshape Hk Hts. induction Hts as [|t ts Ht _ IH]; simpl.
  { exists []. by split; [|split; [|constructor]]. }
  destruct (column_Ok C_values t Hshape Ht) as (column & -> & Hcol). simpl.
  destruct (argmin_Ok column) as (j & -> & Hj).
  { intros ->. simpl in Hcol. lia. }
  simpl. destruct IH as (states & -> & Hlen & Hall). simpl.
  exists (j :: states). simpl. split; [done|]. split; [by rewrite Hlen|].
  constructor; [lia|done].
Qed.

Lemma extract_states_Ok (C_values : list (list mpf)) :
  shape C_values = replicate k (length X) → (0 < k)%nat →
  ∃ states, extract_states X C_values = Ok states
            ∧ length states = length X ∧ Forall (λ j, j < k)%nat states.
Proof.
  intros Hshape Hk. unfold extract_states.
  destruct (argmin_columns_Ok C_values (seq 0 (length X)) Hshape Hk)
    as (states & Hst & Hlen & Hall).
  { apply Forall_forall. intros t Ht%elem_of_seq. lia. }
  exists states. by rewrite length_seq in Hlen.
Qed.

(** Any two costs can be compared, so with at least one state the
    extraction goes through: one state below [k] for every gap. *)
Lemma forward_Some :
  (0 < k)%nat →
  ∃ states, _forward X s gamma k = Some states
            ∧ length states = length X ∧ Forall (λ j, j < k)%nat states.
Proof.
  intros Hk. unfold _forward.
  destruct (extract_states_Ok (cost_table X s gamma k)) as (states & -> & ?);
    [apply shape_cost_table|done|].
  by exists states.
Qed.

(** Without any state there is no column to minimise: the decode fails as
    soon as there is a gap. *)
Lemma forward_None :
  k = 0%nat → X ≠ [] → _forward X s gamma k = None.
Proof.
  intros -> HX. unfold _forward, extract_states, cost_table. simpl.
  destruct X as [|x X']; [done|]. done.
Qed.

(** A state sequence, when there is one, has one state for every gap. *)
Lemma forward_length (states : list nat) :
  _forward X s gamma k = Some states → length states = length X.
Proof.
  unfold _forward, extract_states.
  destruct (mapM _ _) as [st|] eqn:Hst; [|done]. intros [= <-].
  apply mapM_Ok, Forall2_length in Hst. by rewrite length_seq in Hst.
Qed.
End extraction_facts.

(** ** Burstness aggregator *)

Lemma states_on_snoc (d' d : Z) (dates : list Z) (st : list nat) (x : nat) :
  length dates = length st →
  states_on d' (dates ++ [d]) (st ++ [x])
  = states_on d' dates st ++ (if decide (d = d') then [x] else []).
Proof.
  intros Hlen. unfold states_on. rewrite zip_with_app by done. simpl.
  rewrite filter_app, fmap_app. f_equal.
  rewrite filter_cons. simpl. by destruct (decide (d = d')).
Qed.

Lemma states_on_elem_of (d : Z) (dates : list Z) (st : list nat) (x : nat) :
  x ∈ states_on d dates st → x ∈ st.
Proof.
  unfold states_on. intros ((d0 & x0) & -> & Hin%list_elem_of_filter)%list_elem_of_fmap.
  destruct Hin as [_ Hin]. apply list_elem_of_lookup in Hin as [i Hi].
  apply lookup_zip_with_Some in Hi as (? & ? & [= <- <-] & _ & Hx).
  by eapply list_elem_of_lookup_2.
Qed.

Lemma states_on_nil_iff (d : Z) (dates : list Z) (st : list nat) :
  length dates = length st → states_on d dates st = [] ↔ d ∉ dates.
Proof.
  revert st. induction dates as [|d0 dates IH]; intros [|x st] Hlen;
    simplify_eq/=.
  { split; [intros _; apply not_elem_of_nil|done]. }
  unfold states_on in *. simpl. rewrite filter_cons. simpl.
  rewrite not_elem_of_cons. destruct (decide (d0 = d)) as [->|Hne]; simpl.
  - split; [done|]. intros [? _]. done.
  - rewrite IH by done. split; [intros ?; split; [congruence|done]|by intros [_ ?]].
Qed.

(** The buckets after binning the first [count] positions. *)
Lemma bin_by_date_Ok (count : nat) (dates : list Z) (st : list nat) :
  (count ≤ length dates)%nat → (count ≤ length st)%nat →
  ∃ A : gmap Z (list nat), bin_by_date count dates st = Ok A
    ∧ ∀ d, A !! d = match states_on d (take count dates) (take count st) with
                    | [] => None
                    | values => Some values
                    end.
Proof.
  unfold bin_by_date. induction count as [|count IH]; intros Hd Hs.
  { exists ∅. split; [done|]. intros d. by rewrite lookup_empty. }
  destruct IH as (A & HA & Hlookup); [lia..|].
  rewrite seq_S, for_each_app, HA. simpl.
  destruct (py_index_lt dates count) as (d & Hdl & ->); [lia|].
  destruct (py_index_lt st count) as (x & Hxl & ->); [lia|]. simpl.
  eexists. split; [done|]. intros d'.
  rewrite (take_S_r _ _ _ Hdl), (take_S_r _ _ _ Hxl).
  rewrite states_on_snoc by (rewrite !length_take; lia).
  destruct (decide (d = d')) as [<-|Hne].
  - rewrite lookup_insert_eq, Hlookup.
    by destruct (states_on d (take count dates) (take count st)).
  - rewrite lookup_insert_ne by done. rewrite Hlookup, app_nil_r. done.
Qed.

Lemma merge_sort_Permutation_eq (l1 l2 : list Z) :
  l1 ≡ₚ l2 → merge_sort Z.le l1 = merge_sort Z.le l2.
Proof.
  intros Hperm. apply (Sorted_unique Z.le).
  - apply (Sorted_merge_sort _).
  - apply (Sorted_merge_sort _).
  - by rewrite !merge_sort_Permutation.
Qed.

(** [sorted(A.keys())] when the keys of [A] are the dates of [dates]. *)
Lemma sorted_keys {V} (A : gmap Z V) (dates : list Z) :
  (∀ d, is_Some (A !! d) ↔ d ∈ dates) →
  merge_sort Z.le ((map_to_list A).*1) = sorted_dates dates.
Proof.
  intros Hkeys. apply merge_sort_Permutation_eq, NoDup_Permutation.
  - apply NoDup_fst_map_to_list.
  - apply NoDup_elements.
  - intros d. rewrite elem_of_elements, elem_of_list_to_set, <- Hkeys.
    rewrite list_elem_of_fmap. split.
    + intros ([d' v] & -> & Hin%elem_of_map_to_list). eauto.
    + intros [v Hv]. exists (d, v). by rewrite elem_of_map_to_list.
Qed.

Lemma getitems_Ok {V} (A : gmap Z V) (l : list Z) :
  Forall (λ d, is_Some (A !! d)) l →
  ∃ vs, mapM (py_getitem A) l = Ok vs ∧ Forall2 (λ d v, A !! d = Some v) l vs.
Proof.
  induction 1 as [|d l [v Hv] _ (vs & Hvs & Hall)]; simpl.
  - exists []. by split; [|constructor].
  - assert (py_getitem A d = Ok v) as -> by (unfold py_getitem; by rewrite Hv).
    simpl. rewrite Hvs. simpl.
    exists (v :: vs). split; [done|]. by constructor.
Qed.

(** Binning and scoring together: the second half of [feature_burstness]
    on a state sequence [st] of [count] states. *)
Lemma aggregate_Ok (k : nat) (normalize : bool) (count : nat)
    (dates : list Z) (st : list nat) :
  (count ≤ length dates)%nat → length st = count →
  let D := tail (sorted_dates (take count dates)) in
  ∃ scores,
    (A ← bin_by_date count dates st; burst_series k normalize A) = Ok (D, scores)
    ∧ Forall2 (λ d score,
        score = bucket_score k normalize (states_on d (take count dates) st))
      D scores.
Proof.
  intros Hd Hs D.
  destruct (bin_by_date_Ok count dates st) as (A & -> & HA); [lia..|]. simpl.
  rewrite (take_ge st) in HA by lia.
  assert (Hkeys : ∀ d, is_Some ((bucket_score k normalize <$> A) !! d)
                       ↔ d ∈ take count dates).
  { intros d. rewrite lookup_fmap, HA.
    pose proof (states_on_nil_iff d (take count dates) st) as Hnil.
    rewrite length_take in Hnil. specialize (Hnil ltac:(lia)).
    destruct (states_on d (take count dates) st) eqn:Hl; simpl.
    - split; [by intros [? [=]]|]. intros Hin. by apply Hnil in Hin.
    - split; [|by eauto]. intros _.
      destruct (decide (d ∈ take count dates)) as [|Hnotin]; [done|].
      by apply Hnil in Hnotin. }
  unfold burst_series. rewrite (sorted_keys _ _ Hkeys). fold D.
  destruct (getitems_Ok (bucket_score k normalize <$> A) D) as (scores & -> & Hall).
  { apply Forall_forall. intros d Hin. apply Hkeys.
    assert (d ∈ sorted_dates (take count dates)) as Hin'.
    { unfold D in Hin. destruct (sorted_dates (take count dates)); [done|].
      by apply list_elem_of_further. }
    unfold sorted_dates in Hin'.
    by rewrite merge_sort_Permutation, elem_of_elements, elem_of_list_to_set in Hin'. }
  simpl. exists scores. split; [done|].
  eapply Forall2_impl; [exact Hall|]. intros d score. simpl.
  rewrite lookup_fmap, HA.
  destruct (states_on d (take count dates) st); simpl; [done|]. by intros [= <-].
Qed.

Lemma Forall2_eq_fmap {A B} (F : A → B) (l : list A) (k : list B) :
  Forall2 (λ a b, b = F a) l k → k = F <$> l.
Proof. induction 1 as [|a b l k -> _ ->]; done. Qed.

(** ** feature_burstness *)

Section feature_burstness_facts.
Context `{MpMath mpf}.

Lemma Forall_zip_snd (years values : list Z) (P : Z → Prop) :
  Forall P values → Forall (λ yN : Z * Z, P yN.2) (zip years values).
Proof.
  intros Hall. revert years.
  induction Hall as [|N values HN _ IH]; intros [|year years]; simpl;
    constructor; [done|apply IH].
Qed.

(** The call unfolded: the builder never raises on a non-empty [dates],
    and the decoder receives the scaled gaps. *)
Lemma feature_burstness_run (corpus : option Corpus) (fs f : string)
    (k : nat) (normalize : bool) (s gamma : mpf) (dates years values : list Z)
    (previous : Z) :
  last dates = Some previous →
  ∃ X_,
    let dates' := dates ++ event_dates (zip years values) in
    event_gaps dates years values = Ok (X_, dates')
    ∧ length X_ = S (length (event_dates (zip years values)))
    ∧ (Forall (λ N, 0 ≤ N) values →
       X_ = mpf_of_Z 1 :: spec_gaps previous (zip years values))
    ∧ feature_burstness corpus fs f k normalize s gamma
        (Some dates) (Some (years, values))
      = match _forward (scale_gaps X_) s gamma k with
        | None => Ok (None, dates')
        | Some st =>
          A ← bin_by_date (length X_) dates' st;
          result ← burst_series k normalize A;
          Ok (Some result, dates')
        end.
Proof.
  intros Hlast.
  destruct (event_loop (zip years values) previous [mpf_of_Z 1] dates Hlast)
    as (gaps & Hloop & Hlen & Hspec).
  exists (mpf_of_Z 1 :: gaps). simpl. split; [done|]. split; [by rewrite Hlen|].
  split.
  { intros Hall. f_equal. by apply Hspec, Forall_zip_snd. }
  unfold feature_burstness, event_gaps. simpl. rewrite Hloop. done.
Qed.

(** With at least one state and a non-empty [dates] the call returns a
    series: the distinct dates of the first [len(X_)] entries of [dates]
    without the least one, each with the score of its bucket. *)
Lemma feature_burstness_Some (corpus : option Corpus) (fs f : string)
    (k : nat) (normalize : bool) (s gamma : mpf) (dates years values : list Z) :
  (0 < k)%nat → dates ≠ [] →
  ∃ X_ st scores,
    let dates' := dates ++ event_dates (zip years values) in
    let D := tail (sorted_dates (take (length X_) dates')) in
    event_gaps dates years values = Ok (X_, dates')
    ∧ length X_ = S (length (event_dates (zip years values)))
    ∧ _forward (scale_gaps X_) s gamma k = Some st
    ∧ length st = length X_
    ∧ Forall (λ j, j < k)%nat st
    ∧ feature_burstness corpus fs f k normalize s gamma
        (Some dates) (Some (years, values)) = Ok (Some (D, scores), dates')
    ∧ Forall2 (λ d score,
        score = bucket_score k normalize
                  (states_on d (take (length X_) dates') st)) D scores.
Proof.
  intros Hk Hdates.
  assert (∃ previous, last dates = Some previous) as [previous Hlast].
  { destruct (last dates) eqn:Hl; [by eauto|]. by apply last_None in Hl. }
  destruct (feature_burstness_run corpus fs f k normalize s gamma
              dates years values previous Hlast)
    as (X_ & Hgaps & HlenX & _ & Hrun).
  destruct (forward_Some (scale_gaps X_) s gamma k Hk) as (st & Hst & Hlen & Hlt).
  unfold scale_gaps in Hlen. rewrite length_map in Hlen.
  destruct (aggregate_Ok k normalize (length X_)
              (dates ++ event_dates (zip years values)) st)
    as (scores & Hagg & Hscores); [|done|].
  { rewrite length_app, HlenX. destruct dates; [done|simpl; lia]. }
  exists X_, st, scores. simpl. repeat (split; [done|]). split; [|done].
  rewrite Hrun, Hst.
  destruct (bin_by_date (length X_) _ st) as [A|]; simpl in *; [|done].
  by rewrite Hagg.
Qed.
End feature_burstness_facts.

Section wrapper_facts.
Context `{MpMath mpf}.

(** A call on a non-empty [dates] never raises, and leaves in [dates] the
    dates of the distribution after what was there. *)
Lemma feature_burstness_Ok (corpus : option Corpus) (fs f : string)
    (k : nat) (normalize : bool) (s gamma : mpf) (dates : list Z)
    (fd : list Z * list Z) :
  dates ≠ [] →
  ∃ result,
    feature_burstness corpus fs f k normalize s gamma (Some dates) (Some fd)
    = Ok (result, dates ++ event_dates (zip fd.1 fd.2)).
Proof.
  intros Hdates. destruct fd as [years values]. simpl.
  destruct k as [|k'].
  - assert (∃ previous, last dates = Some previous) as [previous Hlast].
    { destruct (last dates) eqn:Hl; [by eauto|]. by apply last_None in Hl. }
    destruct (feature_burstness_run corpus fs f 0 normalize s gamma
                dates years values previous Hlast)
      as (X_ & _ & HlenX & _ & ->).
    rewrite forward_None; [by eexists|done|].
    destruct X_; [done|]. done.
  - destruct (feature_burstness_Some corpus fs f (S k') normalize s gamma
                dates years values) as (? & ? & scores & _ & _ & _ & _ & _ & -> & _);
      [lia|done|]. by eexists.
Qed.

(** The loop of the wrapper from any state: the [dates] list collects the
    dates of every distribution of the run. *)
Lemma wrapper_loop (p : param) (items : list (string * (list Z * list Z)))
    (B : gmap string (option series)) (dates : list Z) :
  dates ≠ [] →
  ∃ B', for_each (wrapper_step p) items (B, dates)
        = Ok (B', dates ++ appended_dates items.*2).
Proof.
  revert B dates. induction items as [|[f fd] items IH]; intros B dates Hdates.
  { exists B. simpl. by rewrite app_nil_r. }
  destruct (feature_burstness_Ok None (p_featureset_name p) f (p_k p)
              (p_normalize p) (p_s p) (p_gamma p) dates fd Hdates)
    as [result Hcall].
  destruct (IH (<[f := result]> B) (dates ++ event_dates (zip fd.1 fd.2)))
    as [B' HB'].
  { destruct dates; [done|]. done. }
  exists B'. cbn [for_each wrapper_step]. rewrite Hcall. cbn -[appended_dates].
  rewrite HB'. unfold appended_dates. simpl. by rewrite app_assoc.
Qed.
End wrapper_facts.

(** ** Scores as rationals *)

Lemma sum_list_bound (values : list nat) (b : nat) :
  Forall (λ x, x ≤ b)%nat values → (sum_list values ≤ b * length values)%nat.
Proof. induction 1; simpl; lia. Qed.

Lemma sum_list_const (values : list nat) (b : nat) :
  Forall (λ x, x = b) values → sum_list values = (b * length values)%nat.
Proof. induction 1; simpl; lia. Qed.

Lemma mean_le (values : list nat) (b : nat) :
  values ≠ [] → Forall (λ x, x ≤ b)%nat values →
  (0 <= mean values)%Q ∧ (mean values <= inject_Z (Z.of_nat b))%Q.
Proof.
  intros Hne Hall. unfold mean.
  assert (0 < Z.of_nat (length values)) as Hlen by (destruct values; [done|simpl; lia]).
  assert (0 < inject_Z (Z.of_nat (length values)))%Q as HlenQ.
  { by rewrite (Zlt_Qlt 0) in Hlen. }
  split.
  - apply Qle_shift_div_l; [done|]. rewrite Qmult_0_l.
    rewrite <- (Zle_Qle 0). lia.
  - apply Qle_shift_div_r; [done|]. rewrite <- inject_Z_mult, <- Zle_Qle.
    pose proof (sum_list_bound values b Hall). lia.
Qed.

Lemma mean_const (values : list nat) (b : nat) :
  values ≠ [] → Forall (λ x, x = b) values →
  (mean values == inject_Z (Z.of_nat b))%Q.
Proof.
  intros Hne Hall. unfold mean. rewrite (sum_list_const values b Hall).
  rewrite Nat2Z.inj_mul, inject_Z_mult.
  apply Qdiv_mult_l.
  assert (0 < Z.of_nat (length values)) as Hlen by (destruct values; [done|simpl; lia]).
  intros Heq. rewrite (Zlt_Qlt 0) in Hlen. rewrite Heq in Hlen. by apply Qlt_irrefl in Hlen.
Qed.

Lemma normalized_bounds (k : nat) (m : Q) :
  (0 < k)%nat → (0 <= m)%Q → (m <= inject_Z (Z.of_nat k - 1))%Q →
  let score := (m / inject_Z (Z.of_nat k))%Q in
  (0 <= score)%Q
  ∧ (score <= inject_Z (Z.of_nat k - 1) / inject_Z (Z.of_nat k))%Q
  ∧ (score < 1)%Q.
Proof.
  intros Hk H0 Hm score.
  assert (0 < inject_Z (Z.of_nat k))%Q as HkQ.
  { rewrite <- (Zlt_Qlt 0). lia. }
  assert (score <= inject_Z (Z.of_nat k - 1) / inject_Z (Z.of_nat k))%Q as Hle.
  { unfold score, Qdiv. apply Qmult_le_compat_r; [done|].
    apply Qinv_le_0_compat. by apply Qlt_le_weak. }
  split; [|split; [done|]].
  - unfold score. apply Qle_shift_div_l; [done|]. by rewrite Qmult_0_l.
  - eapply Qle_lt_trans; [exact Hle|].
    apply Qlt_shift_div_r; [done|]. rewrite Qmult_1_l, <- Zlt_Qlt. lia.
Qed.

Lemma tail_sorted_dates_elem (d : Z) (dates : list Z) :
  d ∈ tail (sorted_dates dates) → d ∈ dates.
Proof.
  intros Hin.
  assert (d ∈ sorted_dates dates) as Hin'.
  { destruct (sorted_dates dates); [done|]. by apply list_elem_of_further. }
  unfold sorted_dates in Hin'.
  by rewrite merge_sort_Permutation, elem_of_elements, elem_of_list_to_set in Hin'.
Qed.

Lemma sorted_dates_elem (d : Z) (dates : list Z) :
  d ∈ sorted_dates dates ↔ d ∈ dates.
Proof.
  unfold sorted_dates.
  by rewrite merge_sort_Permutation, elem_of_elements, elem_of_list_to_set.
Qed.

(** A date below all the others comes first. *)
Lemma sorted_dates_cons_least (pad : Z) (dates : list Z) :
  Forall (λ d, pad < d) dates →
  sorted_dates (pad :: dates) = pad :: sorted_dates dates.
Proof.
  intros Hleast. apply (Sorted_unique Z.le).
  - apply (Sorted_merge_sort _).
  - constructor; [apply (Sorted_merge_sort _)|].
    destruct (sorted_dates dates) as [|d ds] eqn:Hsorted; constructor.
    assert (d ∈ dates) as Hd by (apply sorted_dates_elem; rewrite Hsorted; by left).
    rewrite Forall_forall in Hleast. specialize (Hleast d Hd). lia.
  - unfold sorted_dates. rewrite !merge_sort_Permutation, list_to_set_cons.
    apply elements_union_singleton. rewrite elem_of_list_to_set.
    intros Hin. rewrite Forall_forall in Hleast. specialize (Hleast pad Hin). lia.
Qed.

Lemma event_dates_elem (d : Z) (dist : list (Z * Z)) :
  d ∈ event_dates dist ↔ ∃ N, (d, N) ∈ dist ∧ N ≠ 0.
Proof.
  induction dist as [|[year N] dist IH].
  { split; [by intros ?%elem_of_nil|]. by intros (? & ?%elem_of_nil & _). }
  change (event_dates ((year, N) :: dist))
    with ((if N =? 0 then [] else if 1 <? N then replicate (Z.to_nat N) year
           else [year]) ++ event_dates dist).
  rewrite elem_of_app, IH. split.
  - intros [Hin|(N' & Hin & HN')].
    + exists N. destruct (Z.eqb_spec N 0); [by apply elem_of_nil in Hin|].
      split; [|done]. destruct (1 <? N).
      * apply elem_of_replicate_inv in Hin as ->. by left.
      * apply list_elem_of_singleton in Hin as ->. by left.
    + exists N'. split; [by right|done].
  - intros (N' & [Heq|Hin]%elem_of_cons & HN').
    + injection Heq as -> ->. left.
      destruct (Z.eqb_spec N 0); [done|].
      destruct (Z.ltb_spec 1 N).
      * apply elem_of_replicate. split; [done|lia].
      * by left.
    + right. by exists N'.
Qed.

(** * The claims *)

(** C5.  The gap sequence handed to the decoder.  For a padding date and
    a distribution with non-negative counts, [feature_burstness] builds
    exactly the sequence the specification describes: the initial gap 1,
    then per pair with a positive count either the single gap
    [date - previous date] (count 1), or that gap followed by
    [count - 1] gaps [1/(count - 1)] (count above 1, date not contiguous),
    or [count] gaps [1/count] (count above 1, date contiguous); pairs with
    count 0 add nothing; every gap is multiplied by 100; and this sequence
    is the argument of [_forward]. *)
Theorem feature_burstness_gap_sequence `{MpMath mpf} (corpus : option Corpus)
    (fs f : string) (k : nat) (normalize : bool) (s gamma : mpf)
    (padding : Z) (years values : list Z) :
  Forall (λ N, 0 ≤ N) values →
  ∃ X_ dates,
    event_gaps [padding] years values = Ok (X_, dates)
    ∧ scale_gaps X_ = spec_gap_sequence padding (zip years values)
    ∧ feature_burstness corpus fs f k normalize s gamma
        (Some [padding]) (Some (years, values))
      = match _forward (spec_gap_sequence padding (zip years values)) s gamma k with
        | None => Ok (None, dates)
        | Some st =>
          A ← bin_by_date (length X_) dates st;
          result ← burst_series k normalize A;
          Ok (Some result, dates)
        end.
Proof.
  intros Hcounts.
  destruct (feature_burstness_run corpus fs f k normalize s gamma
              [padding] years values padding eq_refl)
    as (X_ & Hgaps & _ & Hspec & Hrun).
  exists X_, ([padding] ++ event_dates (zip years values)).
  split; [done|].
  assert (scale_gaps X_ = spec_gap_sequence padding (zip years values)) as Hscaled.
  { rewrite (Hspec Hcounts). done. }
  split; [done|]. by rewrite <- Hscaled.
Qed.

Lemma feature_burstness_gap_sequence_witness :
  ∃ X_ dates,
    event_gaps (mpf := xreal) [1999] [2000; 2001; 2010] [1; 5; 1] = Ok (X_, dates)
    ∧ scale_gaps X_
      = spec_gap_sequence 1999 (zip [2000; 2001; 2010] [1; 5; 1])
    ∧ feature_burstness None "citations" "x" 5 true s_default gamma_default
        (Some [1999]) (Some ([2000; 2001; 2010], [1; 5; 1]))
      = match _forward (spec_gap_sequence 1999 (zip [2000; 2001; 2010] [1; 5; 1]))
                s_default gamma_default 5 with
        | None => Ok (None, dates)
        | Some st =>
          A ← bin_by_date (length X_) dates st;
          result ← burst_series 5 true A;
          Ok (Some result, dates)
        end.
Proof.
  apply (feature_burstness_gap_sequence (mpf := xreal)).
  repeat constructor; lia.
Defined.



(** C6.  Normalised scores.  For a state sequence with states below [k]
    and a date sequence of the same length, binning and scoring with
    normalisation return the distinct dates in ascending order without
    the least one, and with each of them the arithmetic mean of the
    states sharing that date divided by [k].  The bucket of a returned
    date is never empty; its score lies between 0 and [(k-1)/k], is never
    1, and is [(k-1)/k] when every state of the bucket is the highest
    state [k-1]. *)
Theorem normalized_score_mean_over_k (k : nat) (dates : list Z) (st : list nat) :
  (0 < k)%nat → length st = length dates → Forall (λ j, j < k)%nat st →
  let D := tail (sorted_dates dates) in
  let score (d : Z) := (mean (states_on d dates st) / inject_Z (Z.of_nat k))%Q in
  (A ← bin_by_date (length st) dates st; burst_series k true A)
    = Ok (D, score <$> D)
  ∧ ∀ d, d ∈ D →
      states_on d dates st ≠ []
      ∧ (0 <= score d)%Q
      ∧ (score d <= inject_Z (Z.of_nat k - 1) / inject_Z (Z.of_nat k))%Q
      ∧ ¬ (score d == 1)%Q
      ∧ (Forall (λ x, x = (k - 1)%nat) (states_on d dates st) →
         (score d == inject_Z (Z.of_nat k - 1) / inject_Z (Z.of_nat k))%Q).
Proof.
  intros Hk Hlen Hst D score.
  destruct (aggregate_Ok k true (length st) dates st) as (scores & Hagg & Hscores);
    [lia|done|].
  rewrite take_ge in Hagg, Hscores by lia.
  apply Forall2_eq_fmap in Hscores. split; [by rewrite Hagg, Hscores|].
  intros d Hd.
  assert (Hin : d ∈ dates) by by apply tail_sorted_dates_elem.
  assert (Hne : states_on d dates st ≠ []).
  { intros Hnil. by apply states_on_nil_iff in Hnil. }
  assert (Hbound : Forall (λ x, x ≤ k - 1)%nat (states_on d dates st)).
  { apply Forall_forall. intros x Hx%states_on_elem_of.
    rewrite Forall_forall in Hst. specialize (Hst x Hx). lia. }
  destruct (mean_le _ _ Hne Hbound) as [Hmean0 Hmean].
  replace (Z.of_nat (k - 1)) with (Z.of_nat k - 1) in Hmean by lia.
  destruct (normalized_bounds k _ Hk Hmean0 Hmean) as (H0 & Hle & Hlt).
  unfold score. repeat split; try done.
  - intros Heq. rewrite Heq in Hlt. by apply Qlt_irrefl in Hlt.
  - intros Hmax. rewrite (mean_const _ _ Hne Hmax).
    by replace (Z.of_nat (k - 1)) with (Z.of_nat k - 1) by lia.
Qed.

Lemma normalized_score_mean_over_k_witness :
  let dates := [1999; 2001; 2001; 2003] in
  let st := [0; 4; 4; 1]%nat in
  let D := tail (sorted_dates dates) in
  let score (d : Z) := (mean (states_on d dates st) / inject_Z 5)%Q in
  D = [2001; 2003]
  ∧ (A ← bin_by_date 4 dates st; burst_series 5 true A) = Ok (D, score <$> D)
  ∧ ∀ d, d ∈ D →
      states_on d dates st ≠ []
      ∧ (0 <= score d)%Q
      ∧ (score d <= inject_Z 4 / inject_Z 5)%Q
      ∧ ¬ (score d == 1)%Q
      ∧ (Forall (λ x, x = 4%nat) (states_on d dates st) →
         (score d == inject_Z 4 / inject_Z 5)%Q).
Proof.
  intros dates st D score. split; [by vm_compute|].
  apply (normalized_score_mean_over_k 5 dates st).
  - lia.
  - reflexivity.
  - repeat constructor; lia.
Defined.




(** ** The fan-out partition *)

Lemma chunks_concat {A} (l : list A) (c m : nat) :
  concat (map (λ i, py_slice l (i * c) ((i + 1) * c)) (seq 0 m))
  = take (m * c) l.
Proof.
  induction m as [|m IH]; [done|].
  rewrite seq_S, map_app, concat_app, IH. simpl. rewrite app_nil_r.
  unfold py_slice. replace ((m + 1) * c - m * c)%nat with c by lia.
  rewrite take_take_drop. f_equal. lia.
Qed.

(** The chunks of [params], one after the other, are the first
    [(workers + 1) * floor(F / workers)] features: no feature occurs
    twice, and the features after that prefix occur in no chunk. *)
Lemma params_features `{MpMath mpf} (corpus : Corpus) (fs : string)
    (features : list string) (k workers : nat) (normalize : bool) :
  concat (p_features <$> params corpus fs features k workers normalize)
  = take ((workers + 1) * (length features / workers)) features.
Proof.
  unfold params. rewrite <- list_fmap_compose.
  rewrite <- (chunks_concat features (length features / workers) (workers + 1)).
  done.
Qed.

(** C2.  The partition of the fan-out on three features and four
    workers: [floor(3/4) = 0], so each of the five chunks is empty and
    the merged map has no key at all. *)
Theorem fan_out_drops_features `{MpMath mpf} (corpus : Corpus) (fs : string)
    (k : nat) (normalize : bool) (s gamma : mpf) :
  p_features <$> params corpus fs ["a"; "b"; "c"] k 4 normalize
    = [[]; []; []; []; []]
  ∧ burstness corpus fs ["a"; "b"; "c"] k 4 normalize s gamma = Ok ∅.
Proof. split; reflexivity. Qed.

(** ** The sequential pass of burstness *)

Section sequential_facts.
Context `{MpMath mpf}.
Variables (corpus : Corpus) (fs : string) (k : nat) (normalize : bool).
Variables (s gamma : mpf).

(** The value the sequential pass stores for a feature. *)
Local Abbreviation call f :=
  (feature_burstness (Some corpus) fs f k normalize s gamma None None).

Lemma sequential_call_Ok (f : string) : ∃ result dates, call f = Ok (result, dates).
Proof.
  destruct (feature_burstness_Ok (Some corpus) fs f k normalize s gamma
              [min_date corpus - 1] (corpus_feature_distribution corpus fs f))
    as [result Hcall]; [done|].
  exists result. eexists. rewrite <- Hcall.
  unfold feature_burstness. simpl.
  by destruct (corpus_feature_distribution corpus fs f).
Qed.

(** The loop of the sequential pass never raises; afterwards every
    feature of the list is a key, mapped to what its own call returned. *)
Lemma sequential_loop (features : list string) (B0 : gmap string (option series)) :
  ∃ B,
    for_each (λ feature (B : gmap string (option series)),
        '(result, _) ← call feature; Ok (<[feature := result]> B)) features B0
    = Ok B
    ∧ ∀ f, f ∈ features → ∃ result dates,
        call f = Ok (result, dates) ∧ B !! f = Some result.
Proof.
  induction features as [|f0 features IH] using rev_ind.
  { exists B0. split; [done|]. by intros f ?%elem_of_nil. }
  destruct IH as (B & HB & Hkeys).
  destruct (sequential_call_Ok f0) as (r0 & d0 & Hcall0).
  exists (<[f0 := r0]> B). rewrite for_each_app, HB. simpl. rewrite Hcall0. simpl.
  split; [done|]. intros f Hin.
  destruct (decide (f = f0)) as [->|Hne].
  - exists r0, d0. by rewrite lookup_insert_eq.
  - apply elem_of_app in Hin as [Hin|Hin%list_elem_of_singleton]; [|done].
    destruct (Hkeys f Hin) as (r & d & Hcall & Hlookup).
    exists r, d. by rewrite lookup_insert_ne.
Qed.
End sequential_facts.

(** ** A feature whose decode fails *)

(** C4.  A feature that cannot be decoded stays in the result.  The
    feature "x" is seen in 2000 and in 2005; decoded without any state,
    the extraction raises on the first column and [_forward] has no state
    sequence, [feature_burstness] returns [None], and [burstness] stores
    that value: "x" is a key of the map it returns, and its value is not
    a series.  The loop of [sigma] raises on such a map. *)
Theorem burstness_keeps_failed_feature `{MpMath mpf} :
  _forward (scale_gaps [mpf_of_Z 1; mpf_of_Z 1; mpf_of_Z 5])
    s_default gamma_default 0 = None
  ∧ feature_burstness (Some corpus_x) "citations" "x" 0 true
      s_default gamma_default None None
    = Ok (None, [1999; 2000; 2005])
  ∧ burstness corpus_x "citations" ["x"] 0 1 true s_default gamma_default
    = Ok {["x" := None]}
  ∧ ({["x" := None]} : gmap string (option series)) !! "x" = Some None
  ∧ Sigma Rplus Rminus (λ c b, Rpower c (Q2R b)) 1%R centrality_two_slices
      G_two_slices {["x" := None]}
    = Raise.
Proof.
  split; [reflexivity|]. split; [reflexivity|]. split; [reflexivity|].
  split; [apply lookup_singleton_eq|].
  unfold Sigma. cbn [G_two_slices G_items for_each].
  by rewrite map_to_list_singleton.
Qed.

(** ** Dicts built by successive assignments *)

Lemma foldl_insert_lookup `{Countable K} {A} (l : list (K * A)) (m : gmap K A)
    (key : K) (v : A) :
  NoDup l.*1 →
  foldl (λ d kv, <[kv.1 := kv.2]> d) m l !! key = Some v
  ↔ (key, v) ∈ l ∨ ((key ∉ l.*1) ∧ m !! key = Some v).
Proof.
  revert m. induction l as [|[k0 v0] l IH]; intros m Hnodup; simpl.
  { split; [intros ?; right; split; [apply not_elem_of_nil|done]|].
    intros [?%elem_of_nil|[_ ?]]; done. }
  apply NoDup_cons in Hnodup as [Hk0 Hnodup]. rewrite IH by done.
  rewrite elem_of_cons, not_elem_of_cons. split.
  - intros [Hin|[Hnotin Hm]]; [by left; right|].
    destruct (decide (k0 = key)) as [->|Hne].
    + rewrite lookup_insert_eq in Hm. left. left. congruence.
    + rewrite lookup_insert_ne in Hm by done. right. by repeat split.
  - intros [[Heq|Hin]|[[Hne Hnotin] Hm]].
    + injection Heq as -> ->. right. split; [done|]. by rewrite lookup_insert_eq.
    + by left.
    + right. split; [done|]. by rewrite lookup_insert_ne.
Qed.

Lemma py_dict_lookup `{Countable K} {A} (l : list (K * A)) (key : K) (v : A) :
  NoDup l.*1 → py_dict l !! key = Some v ↔ (key, v) ∈ l.
Proof.
  intros Hnodup. unfold py_dict. rewrite foldl_insert_lookup by done.
  rewrite lookup_empty. split; [intros [?|[_ ?]]; done|by left].
Qed.

(** ** Sigma *)

Section sigma_facts.
Context {float : Type}.
Variables (float_add float_sub : float → float → float).
Variable float_pow : float → Q → float.
Variable float_one : float.
Variable betweenness_centrality : Graph → gmap nat float.

Local Abbreviation sigma_node' :=
  (sigma_node float_add float_sub float_pow float_one).
Local Abbreviation item_value' :=
  (item_value float_add float_sub float_pow float_one).

Variables (G : GraphCollection) (key : Z) (graph : Graph).
Variable centrality : gmap nat float.
Hypothesis centrality_total :
  ∀ n, n ∈ graph_nodes graph → is_Some (centrality !! n).

(** One pass of the body on a well-formed item. *)
Lemma sigma_node_step (item : string * option series) (sigma : gmap nat float) :
  is_Some item.2 → is_Some (node_lookup G !! item.1) →
  sigma_node' G key graph centrality item sigma
  = Ok (match item_value' G key graph centrality item with
        | Some (n, v) => <[n := v]> sigma
        | None => sigma
        end).
Proof.
  destruct item as [n_ [[dates scores]|]]; simpl; intros [? ?] [n Hn]; [|done].
  simplify_eq.
  assert (py_getitem (node_lookup G) n_ = Ok n) as ->
    by (unfold py_getitem; by rewrite Hn).
  rewrite Hn. simpl.
  destruct (decide (n ∈ graph_nodes graph)) as [Hnode|Hnode].
  - rewrite !(bool_decide_eq_true_2 (n ∈ graph_nodes graph)) by done. simpl.
    destruct (centrality_total n Hnode) as [c Hc].
    destruct (py_dict (zip dates scores) !! key) as [b|] eqn:Hb; simpl.
    + unfold py_getitem. rewrite Hc, Hb. simpl. done.
    + done.
  - rewrite !(bool_decide_eq_false_2 (n ∈ graph_nodes graph)) by done. done.
Qed.

Lemma sigma_loop (items : list (string * option series)) (sigma0 : gmap nat float) :
  Forall (λ item, is_Some item.2 ∧ is_Some (node_lookup G !! item.1)) items →
  for_each (sigma_node' G key graph centrality) items sigma0
  = Ok (foldl (λ d nv, <[nv.1 := nv.2]> d) sigma0
          (omap (item_value' G key graph centrality) items)).
Proof.
  intros Hwf. revert sigma0.
  induction Hwf as [|item items [Hs Hn] _ IH]; intros sigma0; [done|].
  cbn [for_each]. rewrite sigma_node_step by done. cbn [mbind py_bind].
  rewrite IH. cbn [omap list_omap].
  by destruct (item_value' G key graph centrality item) as [[n v]|].
Qed.

(** Distinct features with distinct node indices are assigned distinct
    nodes. *)
Lemma item_values_NoDup (items : list (string * option series)) :
  NoDup items.*1 →
  (∀ n1 n2 n, n1 ∈ items.*1 → n2 ∈ items.*1 →
     node_lookup G !! n1 = Some n → node_lookup G !! n2 = Some n → n1 = n2) →
  NoDup (omap (item_value' G key graph centrality) items).*1.
Proof.
  intros Hnodup Hinj. induction items as [|item items IH]; [constructor|].
  simpl in Hnodup. apply NoDup_cons in Hnodup as [Hfresh Hnodup].
  assert (IH' : NoDup (omap (item_value' G key graph centrality) items).*1).
  { apply IH; [done|]. intros n1 n2 n H1 H2. apply Hinj; simpl; by right. }
  cbn [omap list_omap].
  destruct (item_value' G key graph centrality item) as [[n v]|] eqn:Hitem; [|done].
  simpl. apply NoDup_cons. split; [|done].
  intros ([n' v'] & Heq & Hin)%list_elem_of_fmap. simpl in Heq. subst n'.
  apply list_elem_of_omap in Hin as (item' & Hin' & Hitem').
  apply Hfresh.
  assert (Hlook : ∀ it w, item_value' G key graph centrality it = Some (n, w) →
            node_lookup G !! it.1 = Some n).
  { intros [m_ [[ds ss]|]] w; simpl; [|done].
    destruct (node_lookup G !! m_) as [m|]; simpl; [|done].
    destruct (bool_decide (m ∈ graph_nodes graph)); simpl; [|done].
    destruct (py_dict (zip ds ss) !! key); simpl; [|done].
    destruct (centrality !! m); simpl; [|done]. congruence. }
  assert (item.1 = item'.1) as ->.
  { apply (Hinj _ _ n); simpl.
    - by left.
    - right. apply list_elem_of_fmap. by exists item'.
    - by eapply Hlook.
    - by eapply Hlook. }
  apply list_elem_of_fmap. by exists item'.
Qed.
End sigma_facts.

Section sigma_claim.
Context {float : Type}.
Variables (float_add float_sub : float → float → float).
Variable float_pow : float → Q → float.
Variable float_one : float.
Variable betweenness_centrality : Graph → gmap nat float.

Local Abbreviation Sigma' :=
  (Sigma float_add float_sub float_pow float_one betweenness_centrality).
Local Abbreviation item_value' :=
  (item_value float_add float_sub float_pow float_one).

(** What an item assigns, spelled out. *)
Lemma item_value_Some (G : GraphCollection) (key : Z) (graph : Graph)
    (centrality : gmap nat float) (n_ : string) (burst : option series)
    (n : nat) (v : float) :
  item_value' G key graph centrality (n_, burst) = Some (n, v)
  ↔ ∃ dates scores b c,
      burst = Some (dates, scores)
      ∧ node_lookup G !! n_ = Some n
      ∧ n ∈ graph_nodes graph
      ∧ py_dict (zip dates scores) !! key = Some b
      ∧ centrality !! n = Some c
      ∧ v = float_sub (float_pow (float_add c float_one) b) float_one.
Proof.
  destruct burst as [[dates scores]|]; simpl.
  2: { split; [done|]. by intros (? & ? & ? & ? & ? & _). }
  split.
  - destruct (node_lookup G !! n_) as [m|] eqn:Hlook; simpl; [|done].
    destruct (decide (m ∈ graph_nodes graph)) as [Hm|Hm].
    + rewrite bool_decide_eq_true_2 by done.
      destruct (py_dict (zip dates scores) !! key) as [b|] eqn:Hb; simpl; [|done].
      destruct (centrality !! m) as [c|] eqn:Hc; simpl; [|done].
      intros [= <- <-]. exists dates, scores, b, c. by rewrite Hc.
    + by rewrite bool_decide_eq_false_2 by done.
  - intros (? & ? & b & c & [= <- <-] & -> & Hn & -> & Hc & ->). simpl.
    rewrite bool_decide_eq_true_2 by done. simpl. by rewrite Hc.
Qed.

(** The outer loop, given that no slice raises. *)
Lemma Sigma_loop (G : GraphCollection) (B : gmap string (option series))
    (items : list (Z * Graph)) (slice : Z → Graph → gmap nat float)
    (Sigma0 : gmap Z (gmap nat float)) :
  (∀ key graph, (key, graph) ∈ items →
     for_each (sigma_node float_add float_sub float_pow float_one G key graph
                 (betweenness_centrality graph)) (map_to_list B) ∅
     = Ok (slice key graph)) →
  for_each (λ '(key, graph) (Sigma : gmap Z (gmap nat float)),
      let centrality := betweenness_centrality graph in
      sigma ← for_each (sigma_node float_add float_sub float_pow float_one
                          G key graph centrality) (map_to_list B) ∅;
      Ok (<[key := sigma]> Sigma)) items Sigma0
  = Ok (foldl (λ d kv, <[kv.1 := kv.2]> d) Sigma0
          ((λ kg, (kg.1, slice kg.1 kg.2)) <$> items)).
Proof.
  revert Sigma0. induction items as [|[key graph] items IH]; intros Sigma0 Hall;
    [done|].
  cbn [for_each]. rewrite (Hall key graph) by apply list_elem_of_here. simpl.
  apply IH. intros key' graph' Hin. apply Hall. by right.
Qed.

(** C7.  Sigma per slice.  For a graph collection with distinct slice
    keys, a burst map in which every feature has a series, a node index
    of its own, and a centrality for every node of a slice: the loop over
    the slices does not raise; the result has an entry for every slice;
    and in the entry of a slice a node [n] has the value [v] exactly when
    [n] is the index of a feature of the burst map, [n] is a node of the
    slice's graph, the slice's key is a date of the feature's series with
    burst [b], the centrality of [n] in the slice is [c], and
    [v = (c + 1) ** b - 1].  A node outside the slice's graph has no value
    in that slice. *)
Theorem sigma_slice_values (G : GraphCollection) (B : gmap string (option series)) :
  NoDup (G_items G).*1 →
  (∀ n_ burst, B !! n_ = Some burst →
     is_Some burst ∧ is_Some (node_lookup G !! n_)) →
  (∀ n1 n2 n, is_Some (B !! n1) → is_Some (B !! n2) →
     node_lookup G !! n1 = Some n → node_lookup G !! n2 = Some n → n1 = n2) →
  (∀ key graph n, (key, graph) ∈ G_items G → n ∈ graph_nodes graph →
     is_Some (betweenness_centrality graph !! n)) →
  ∃ S, Sigma' G B = Ok S
    ∧ ∀ key graph, (key, graph) ∈ G_items G →
      ∃ sigma, S !! key = Some sigma
        ∧ (∀ n v, sigma !! n = Some v ↔
             ∃ n_ dates scores b c,
               B !! n_ = Some (Some (dates, scores))
               ∧ node_lookup G !! n_ = Some n
               ∧ n ∈ graph_nodes graph
               ∧ py_dict (zip dates scores) !! key = Some b
               ∧ betweenness_centrality graph !! n = Some c
               ∧ v = float_sub (float_pow (float_add c float_one) b) float_one)
        ∧ (∀ n, n ∉ graph_nodes graph → sigma !! n = None).
Proof.
  intros Hkeys Hwf Hinj Hcentral.
  set (slice := λ (key : Z) (graph : Graph),
         py_dict (omap (item_value' G key graph (betweenness_centrality graph))
                    (map_to_list B))).
  assert (Hitems : Forall (λ item : string * option series,
                      is_Some item.2 ∧ is_Some (node_lookup G !! item.1))
                    (map_to_list B)).
  { apply Forall_forall. intros [n_ burst] Hin%elem_of_map_to_list. by apply Hwf. }
  assert (Hslices : ∀ key graph, (key, graph) ∈ G_items G →
            for_each (sigma_node float_add float_sub float_pow float_one G key
                        graph (betweenness_centrality graph)) (map_to_list B) ∅
            = Ok (slice key graph)).
  { intros key graph Hin. apply sigma_loop; [|done].
    intros n Hn. by eapply Hcentral. }
  eexists. split.
  { unfold Sigma. by apply Sigma_loop. }
  intros key graph Hin. exists (slice key graph).
  assert (Hvalues : ∀ n v, slice key graph !! n = Some v ↔
            ∃ n_ dates scores b c,
              B !! n_ = Some (Some (dates, scores))
              ∧ node_lookup G !! n_ = Some n
              ∧ n ∈ graph_nodes graph
              ∧ py_dict (zip dates scores) !! key = Some b
              ∧ betweenness_centrality graph !! n = Some c
              ∧ v = float_sub (float_pow (float_add c float_one) b) float_one).
  { intros n v. unfold slice. rewrite py_dict_lookup.
    2: { apply item_values_NoDup; [apply NoDup_fst_map_to_list|].
         intros n1 n2 m H1 H2. apply Hinj.
         - apply list_elem_of_fmap in H1 as ([? b1] & -> & ?%elem_of_map_to_list).
           by exists b1.
         - apply list_elem_of_fmap in H2 as ([? b2] & -> & ?%elem_of_map_to_list).
           by exists b2. }
    rewrite list_elem_of_omap. split.
    - intros ([n_ burst] & Hitem%elem_of_map_to_list & Hval).
      apply item_value_Some in Hval
        as (dates & scores & b & c & -> & ? & ? & ? & ? & ->).
      by exists n_, dates, scores, b, c.
    - intros (n_ & dates & scores & b & c & HB & ? & ? & ? & ? & ->).
      exists (n_, Some (dates, scores)). split; [by apply elem_of_map_to_list|].
      apply item_value_Some. by exists dates, scores, b, c. }
  split; [|split; [done|]].
  - apply foldl_insert_lookup.
    { rewrite <- list_fmap_compose.
      by replace (fst ∘ (λ kg : Z * Graph, (kg.1, slice kg.1 kg.2)))
        with (fst : Z * Graph → Z) by done. }
    left. apply list_elem_of_fmap. by exists (key, graph).
  - intros n Hn. destruct (slice key graph !! n) as [v|] eqn:Hv; [|done].
    apply Hvalues in Hv as (? & ? & ? & ? & ? & _ & _ & ? & _). done.
Qed.
End sigma_claim.

Lemma sigma_slice_values_witness :
  ∃ S, Sigma Rplus Rminus (λ c b, Rpower c (Q2R b)) 1%R centrality_two_slices
         G_two_slices B_two_slices = Ok S
    ∧ ∀ key graph, (key, graph) ∈ G_items G_two_slices →
      ∃ sigma, S !! key = Some sigma
        ∧ (∀ n v, sigma !! n = Some v ↔
             ∃ n_ dates scores b c,
               B_two_slices !! n_ = Some (Some (dates, scores))
               ∧ node_lookup G_two_slices !! n_ = Some n
               ∧ n ∈ graph_nodes graph
               ∧ py_dict (zip dates scores) !! key = Some b
               ∧ centrality_two_slices graph !! n = Some c
               ∧ v = (Rpower (c + 1) (Q2R b) - 1)%R)
        ∧ (∀ n, n ∉ graph_nodes graph → sigma !! n = None).
Proof.
  apply (sigma_slice_values Rplus Rminus (λ c b, Rpower c (Q2R b)) 1%R
           centrality_two_slices G_two_slices B_two_slices).
  - simpl. apply NoDup_cons. split; [|apply NoDup_singleton].
    intros Hin%list_elem_of_singleton. discriminate.
  - unfold B_two_slices. intros n_ burst [<- <-]%lookup_singleton_Some.
    split; [by eexists|]. simpl. rewrite lookup_singleton_eq. by eexists.
  - unfold B_two_slices. intros n1 n2 n [b1 [<- _]%lookup_singleton_Some]
      [b2 [<- _]%lookup_singleton_Some] _ _. reflexivity.
  - intros key graph n Hin Hn. unfold centrality_two_slices.
    assert (n = 0%nat) as ->.
    { simpl in Hin. apply elem_of_cons in Hin as [Heq|Hin].
      - injection Heq as -> ->. simpl in Hn. by apply elem_of_singleton in Hn.
      - apply list_elem_of_singleton in Hin. injection Hin as -> ->.
        simpl in Hn. by apply elem_of_singleton in Hn. }
    rewrite lookup_singleton_eq. by eexists.
Defined.

(** ** The cost table on three equal gaps *)

Section three_gaps.
Local Open Scope R_scope.

(** The rate of state [j] on [X_three]. *)
Local Abbreviation rate j := (3 / (0 + 100 + 100 + 100) * (Q2R (11 # 10)) ^ j).

(** The emission cost of a gap of 100 at rate [a]. *)
Local Abbreviation cost a := (-1 * ln (a * exp (-1 * a * 100))).

Lemma cost_pos (a : R) : 0 < a < 1 → 0 < a * exp (-1 * a * 100) ∧ 0 < cost a.
Proof.
  intros [Ha0 Ha1].
  assert (Hexp : exp (-1 * a * 100) < 1).
  { rewrite <- exp_0. apply exp_increasing. lra. }
  pose proof (exp_pos (-1 * a * 100)) as Hpos.
  assert (Hprod : 0 < a * exp (-1 * a * 100)) by (apply Rmult_lt_0_compat; lra).
  split; [done|].
  assert (a * exp (-1 * a * 100) < 1) by nra.
  assert (ln (a * exp (-1 * a * 100)) < 0).
  { rewrite <- ln_1. by apply ln_increasing. }
  lra.
Qed.

Lemma rate_bounds (j : nat) : (j < 2)%nat → 0 < rate j < 1.
Proof.
  intros Hj. unfold Q2R. simpl.
  destruct j as [|[|j]]; [| |lia]; simpl; lra.
Qed.

Lemma emission_three (j t : nat) :
  (j < 2)%nat → (t < 3)%nat →
  emission X_three s_default j t = Ok (Fin (cost (rate j))).
Proof.
  intros Hj Ht. unfold emission, f, alpha, mpf_truediv.
  change (Z.of_nat (length X_three)) with 3%Z.
  assert (py_index X_three t = Ok (Fin 100)) as ->.
  { by destruct t as [|[|[|t]]]; [..|lia]. }
  simpl. destruct (Req_dec_T _ _) as [Heq|_]; [exfalso; lra|]. simpl.
  destruct (cost_pos (rate j) (rate_bounds j Hj)) as [Hpos _].
  unfold xreal_sign. destruct (Rlt_dec _ _) as [_|Hn]; [done|]. by destruct Hn.
Qed.

Lemma tau_three_down (l : nat) : tau X_three gamma_default l 0 = Ok (Fin 0).
Proof. reflexivity. Qed.

Lemma tau_three_same : tau X_three gamma_default 1 1 = Ok (Fin 0).
Proof. reflexivity. Qed.

Lemma tau_three_up : tau X_three gamma_default 0 1 = Ok (Fin (1 * 1 * ln 3)).
Proof.
  unfold tau. change (Z.of_nat (length X_three)) with 3%Z.
  change (Z.of_nat 1 - Z.of_nat 0)%Z with 1%Z. simpl. unfold xreal_sign.
  destruct (Rlt_dec 0 3) as [_|Hn]; [done|]. exfalso. lra.
Qed.

Ltac eval_cell :=
  unfold C; cbn -[tau emission s_default gamma_default pow Q2R];
  rewrite ?tau_three_down, ?tau_three_same, ?tau_three_up;
  rewrite !emission_three by lia;
  cbn -[tau emission s_default gamma_default pow Q2R].

(** The table when the loop reaches [(0, 1)]: nothing but zeros. *)
Lemma C_three_0_1 :
  C X_three s_default gamma_default 2
    [[Fin 0; Fin 0; Fin 0]; [Fin 0; Fin 0; Fin 0]] 0 1
  = Ok (Fin (cost (rate 0) + (0 + 0))).
Proof.
  eval_cell. destruct (Rlt_dec _ _) as [Hlt|_]; [exfalso; lra|done].
Qed.

(** The table when the loop reaches [(0, 2)]: row 1 is still all zeros. *)
Lemma C_three_0_2 (c : R) :
  0 < c →
  C X_three s_default gamma_default 2
    [[Fin 0; Fin c; Fin 0]; [Fin 0; Fin 0; Fin 0]] 0 2
  = Ok (Fin (cost (rate 0) + (0 + 0))).
Proof.
  intros Hc. eval_cell.
  destruct (Rlt_dec _ _) as [_|Hn]; [done|]. exfalso. lra.
Qed.

(** With a single state every cell of the row is a real number. *)
Lemma C_three_single (a b c : R) (t : nat) :
  (0 < t < 3)%nat →
  ∃ r, C X_three s_default gamma_default 1 [[Fin a; Fin b; Fin c]] 0 t
       = Ok (Fin r).
Proof.
  intros Ht. destruct t as [|[|[|t]]]; [lia| | |lia]; eval_cell; by eexists.
Qed.

Lemma single_row_three (t : nat) :
  (t < 3)%nat →
  ∃ r, cell (cost_table X_three s_default gamma_default 1) 0 t = Some (Fin r).
Proof.
  intros Ht.
  destruct (C_three_single 0 0 0 1) as [r1 H1]; [lia|].
  destruct (C_three_single 0 r1 0 2) as [r2 H2]; [lia|].
  assert (cost_table X_three s_default gamma_default 1
          = [[Fin 0; Fin r1; Fin r2]]) as ->.
  { change (cost_table X_three s_default gamma_default 1)
      with (fill_cell X_three s_default gamma_default 1 0
              (fill_cell X_three s_default gamma_default 1 0
                 [[Fin 0; Fin 0; Fin 0]] 1) 2).
    unfold fill_cell at 2. rewrite H1.
    change (set_cell _ 0 1 _) with [[Fin 0; Fin r1; Fin 0]].
    unfold fill_cell. rewrite H2. done. }
  destruct t as [|[|[|t]]]; [..|lia]; by eexists.
Qed.

(** The recurrence of the specification on the same input. *)
Lemma C_spec_three_1_0 :
  C_spec X_three s_default gamma_default 2 1 0 = Ok (Fin (cost (rate 0) + (0 + 0))).
Proof.
  cbn -[tau emission s_default gamma_default pow Q2R].
  rewrite ?tau_three_down, ?tau_three_same, ?tau_three_up.
  rewrite !emission_three by lia.
  cbn -[tau emission s_default gamma_default pow Q2R]. done.
Qed.

Lemma C_spec_three_1_1 :
  C_spec X_three s_default gamma_default 2 1 1
  = Ok (Fin (cost (rate 1) + (0 + 1 * 1 * ln 3))).
Proof.
  cbn -[tau emission s_default gamma_default pow Q2R].
  rewrite ?tau_three_down, ?tau_three_same, ?tau_three_up.
  rewrite !emission_three by lia.
  cbn -[tau emission s_default gamma_default pow Q2R]. done.
Qed.

(** C3.  The cost table against the recurrence, on three equal gaps and
    two states.  The loop fills the table row by row, so when it reaches
    the cell [(0, 2)] the cell [(1, 1)] of the previous column still holds
    the initial 0, which then wins the minimum; the recurrence of the
    specification takes the minimum over the values [C(0,1)] and
    [C(1,1)], both positive.  The cell of the table is strictly below the
    value of the recurrence. *)
Theorem forward_table_breaks_recurrence :
  cell (table_before X_three s_default gamma_default 2 0 2) 1 1 = Some (Fin 0)
  ∧ ∃ code spec : R,
      cell (cost_table X_three s_default gamma_default 2) 0 2 = Some (Fin code)
      ∧ C_spec X_three s_default gamma_default 2 2 0 = Ok (Fin spec)
      ∧ code < spec.
Proof.
  split; [reflexivity|].
  destruct (cost_pos (rate 0) (rate_bounds 0 ltac:(lia))) as [_ He0].
  destruct (cost_pos (rate 1) (rate_bounds 1 ltac:(lia))) as [_ He1].
  assert (Hln3 : 0 < ln 3).
  { rewrite <- ln_1. apply ln_increasing; lra. }
  exists (cost (rate 0) + (0 + 0)).
  assert (Hcode : cell (cost_table X_three s_default gamma_default 2) 0 2
                  = Some (Fin (cost (rate 0) + (0 + 0)))).
  { rewrite cost_table_cell by (simpl; lia).
    change (table_before X_three s_default gamma_default 2 0 2)
      with (fill_cell X_three s_default gamma_default 2 0
              [[Fin 0; Fin 0; Fin 0]; [Fin 0; Fin 0; Fin 0]] 1).
    unfold fill_cell. rewrite C_three_0_1.
    change (set_cell _ 0 1 _)
      with [[Fin 0; Fin (cost (rate 0) + (0 + 0)); Fin 0]; [Fin 0; Fin 0; Fin 0]].
    rewrite C_three_0_2 by lra. done. }
  assert (Hspec : ∃ m, C_spec X_three s_default gamma_default 2 2 0
                       = Ok (Fin (cost (rate 0) + m)) ∧ 0 < m).
  { cbn -[tau emission s_default gamma_default pow Q2R].
    rewrite ?tau_three_down, ?tau_three_same, ?tau_three_up.
    rewrite !emission_three by lia.
    cbn -[tau emission s_default gamma_default pow Q2R].
    destruct (Rlt_dec _ _); eexists; (split; [reflexivity|lra]). }
  destruct Hspec as (m & Hspec & Hm).
  exists (cost (rate 0) + m). split; [done|]. split; [done|]. lra.
Qed.
End three_gaps.


(** ** Sequential pass against fan-out *)

Section fan_out_facts.
Context `{MpMath mpf}.

(** The series of a call, by its dates. *)
Lemma feature_burstness_series (corpus : option Corpus) (fs f : string)
    (k : nat) (normalize : bool) (s gamma : mpf)
    (dates years values dates' D : list Z) :
  (0 < k)%nat → dates ≠ [] →
  dates' = dates ++ event_dates (zip years values) →
  D = tail (sorted_dates
              (take (S (length (event_dates (zip years values)))) dates')) →
  ∃ scores,
    feature_burstness corpus fs f k normalize s gamma
      (Some dates) (Some (years, values)) = Ok (Some (D, scores), dates').
Proof.
  intros Hk Hdates -> ->.
  destruct (feature_burstness_Some corpus fs f k normalize s gamma
              dates years values Hk Hdates)
    as (X_ & st & scores & _ & HlenX & _ & _ & _ & Hrun & _).
  exists scores. by rewrite Hrun, HlenX.
Qed.
End fan_out_facts.

(** C1.  Sequential pass against fan-out, on four features and two
    workers.  Both calls return a map; in the sequential pass the series
    of "b" is dated 2005, the year "b" occurs; in the fan-out "b" is the
    second feature of its chunk, its call finds the dates of "a" in the
    shared list, and its series is dated 2000. *)
Theorem burstness_workers_disagree `{MpMath mpf} :
  ∃ B1 B2 scores1 scores2,
    burstness corpus_ab "citations" ["a"; "b"; "c"; "d"] 5 1 true
      s_default gamma_default = Ok B1
    ∧ burstness corpus_ab "citations" ["a"; "b"; "c"; "d"] 5 2 true
        s_default gamma_default = Ok B2
    ∧ B1 !! "b" = Some (Some ([2005], scores1))
    ∧ B2 !! "b" = Some (Some ([2000], scores2)).
Proof.
  (* the calls of the sequential pass *)
  destruct (feature_burstness_series (Some corpus_ab) "citations" "a" 5 true
              s_default gamma_default [1999] [2000] [1] [1999; 2000] [2000])
    as [sa1 Ha1]; [lia|done|reflexivity|by vm_compute|].
  destruct (feature_burstness_series (Some corpus_ab) "citations" "b" 5 true
              s_default gamma_default [1999] [2005] [1] [1999; 2005] [2005])
    as [sb1 Hb1]; [lia|done|reflexivity|by vm_compute|].
  destruct (feature_burstness_series (Some corpus_ab) "citations" "c" 5 true
              s_default gamma_default [1999] [] [] [1999] [])
    as [sc1 Hc1]; [lia|done|reflexivity|by vm_compute|].
  destruct (feature_burstness_series (Some corpus_ab) "citations" "d" 5 true
              s_default gamma_default [1999] [] [] [1999] [])
    as [sd1 Hd1]; [lia|done|reflexivity|by vm_compute|].
  (* the calls of the two workers *)
  destruct (feature_burstness_series None "citations" "a" 5 true
              s_default gamma_default [2000 - 1] [2000] [1] [1999; 2000] [2000])
    as [sa2 Ha2]; [lia|done|reflexivity|by vm_compute|].
  destruct (feature_burstness_series None "citations" "b" 5 true
              s_default gamma_default [1999; 2000] [2005] [1]
              [1999; 2000; 2005] [2000])
    as [sb2 Hb2]; [lia|done|reflexivity|by vm_compute|].
  destruct (feature_burstness_series None "citations" "c" 5 true
              s_default gamma_default [2000 - 1] [] [] [1999] [])
    as [sc2 Hc2]; [lia|done|reflexivity|by vm_compute|].
  destruct (feature_burstness_series None "citations" "d" 5 true
              s_default gamma_default [1999] [] [] [1999] [])
    as [sd2 Hd2]; [lia|done|reflexivity|by vm_compute|].
  unfold burstness. cbn -[feature_burstness s_default gamma_default].
  change (feature_burstness (Some corpus_ab) "citations" "a" 5 true
            s_default gamma_default None None)
    with (feature_burstness (Some corpus_ab) "citations" "a" 5 true
            s_default gamma_default (Some [1999]) (Some ([2000], [1]))).
  change (feature_burstness (Some corpus_ab) "citations" "b" 5 true
            s_default gamma_default None None)
    with (feature_burstness (Some corpus_ab) "citations" "b" 5 true
            s_default gamma_default (Some [1999]) (Some ([2005], [1]))).
  change (feature_burstness (Some corpus_ab) "citations" "c" 5 true
            s_default gamma_default None None)
    with (feature_burstness (Some corpus_ab) "citations" "c" 5 true
            s_default gamma_default (Some [1999]) (Some ([], []))).
  change (feature_burstness (Some corpus_ab) "citations" "d" 5 true
            s_default gamma_default None None)
    with (feature_burstness (Some corpus_ab) "citations" "d" 5 true
            s_default gamma_default (Some [1999]) (Some ([], []))).
  rewrite Ha1, Hb1, Hc1, Hd1, Ha2, Hc2.
  cbn -[feature_burstness s_default gamma_default].
  rewrite Hb2, Hd2. cbn -[feature_burstness s_default gamma_default].
  do 2 eexists. exists sb1, sb2.
  split; [reflexivity|]. split; [reflexivity|]. split.
  - rewrite !lookup_insert_ne by done. by rewrite lookup_insert_eq.
  - rewrite lookup_union_r by done.
    rewrite lookup_union_r by (rewrite !lookup_insert_ne by done; done).
    rewrite lookup_union_l' by (rewrite lookup_insert_eq; by eexists).
    by rewrite lookup_insert_eq.
Qed.

(** ** Worked examples *)

(** The end-to-end scenario of the specification: once in 2000, five
    times in 2001, once in 2010. *)
Example event_gaps_scenario `{MpMath mpf} :
  event_gaps [1999] [2000; 2001; 2010] [1; 5; 1]
  = Ok ([mpf_of_Z 1; mpf_of_Z 1]
          ++ replicate 5 (mpf_div (mpf_of_Z 1) (mpf_of_Z 5)) ++ [mpf_of_Z 9],
        [1999; 2000; 2001; 2001; 2001; 2001; 2001; 2010]).
Proof. reflexivity. Qed.

(** A count above 1 on a date that is not contiguous: one full gap, then
    [count - 1] gaps of [1/(count - 1)]. *)
Example event_gaps_not_contiguous `{MpMath mpf} :
  event_gaps [1999] [2005] [3]
  = Ok ([mpf_of_Z 1; mpf_of_Z 6;
         mpf_div (mpf_of_Z 1) (mpf_of_Z 2); mpf_div (mpf_of_Z 1) (mpf_of_Z 2)],
        [1999; 2005; 2005; 2005]).
Proof. reflexivity. Qed.

(** Two states 4 on one date, five states: the mean 4 over 5. *)
Example burst_series_two_on_a_date :
  (A ← bin_by_date 3 [1999; 2001; 2001] [0; 4; 4]%nat; burst_series 5 true A)
  = Ok ([2001], [(8 # 10)%Q]).
Proof. vm_compute. reflexivity. Qed.

(** Eleven features on four workers: chunks of two, five of them, and
    the eleventh feature in none. *)
Example params_eleven_features `{MpMath mpf} (corpus : Corpus) :
  p_features <$> params corpus "citations"
    ["f0"; "f1"; "f2"; "f3"; "f4"; "f5"; "f6"; "f7"; "f8"; "f9"; "f10"] 5 4 true
  = [["f0"; "f1"]; ["f2"; "f3"]; ["f4"; "f5"]; ["f6"; "f7"]; ["f8"; "f9"]].
Proof. reflexivity. Qed.

(** The sigma scenario of the specification: sigma is 0 in the slice
    where the burst is 0, and [1.2 ** 0.5 - 1] in the next. *)
Example Sigma_two_slices :
  Sigma Rplus Rminus (λ c b, Rpower c (Q2R b)) 1%R centrality_two_slices
    G_two_slices B_two_slices
  = Ok (<[2001 := {[0%nat := (Rpower (2 / 10 + 1) (Q2R (1 # 2)) - 1)%R]}]>
         (<[2000 := {[0%nat := (Rpower (2 / 10 + 1) (Q2R 0) - 1)%R]}]> ∅)).
Proof. reflexivity. Qed.

Example Sigma_two_slices_first :
  ∃ S sigma,
    Sigma Rplus Rminus (λ c b, Rpower c (Q2R b)) 1%R centrality_two_slices
      G_two_slices B_two_slices = Ok S
    ∧ S !! 2000 = Some sigma ∧ sigma !! 0%nat = Some 0%R.
Proof.
  rewrite Sigma_two_slices. do 2 eexists. split; [reflexivity|].
  rewrite lookup_insert_ne by done. rewrite lookup_insert_eq.
  split; [reflexivity|]. rewrite lookup_singleton_eq. f_equal.
  replace (Q2R 0) with 0%R by (unfold Q2R; simpl; lra).
  rewrite Rpower_O by lra. lra.
Qed.

(** * Further properties of the module *)

(** ** The decoder *)

Lemma mapM_py_ext {A B} (f g : A → py B) (l : list A) :
  Forall (λ x, f x = g x) l → mapM f l = mapM g l.
Proof.
  induction 1 as [|x l Hx _ IH]; simpl; [done|]. by rewrite Hx, IH.
Qed.

Section decoder_properties.
Context `{MpMath mpf}.
Variables (X : list mpf) (s gamma : mpf) (k : nat).

(** Without any state the result is [None] as soon as there is a gap; on
    the empty gap sequence it is the empty state sequence. *)
Theorem forward_without_states :
  _forward X s gamma 0 = match X with [] => Some [] | _ :: _ => None end.
Proof.
  destruct X as [|x X'] eqn:HX; [done|].
  apply forward_None; done.
Qed.

(** The first column of the final table holds the base cases: 0 for
    state 0 and the infinite cost for every other state. *)
Theorem forward_first_column (j : nat) :
  (j < k)%nat → (0 < length X)%nat →
  cell (cost_table X s gamma k) j 0
  = Some (if (j =? 0)%nat then mpf_of_Z 0 else mpf_inf).
Proof.
  intros Hj Hn. rewrite cost_table_cell by done.
  unfold C. by destruct j.
Qed.

(** The order in which the table is filled.  When the loop reaches the
    cell [(j, t)], the cells of the rows before [j] and the cells of row
    [j] before column [t] hold their final value; every other cell, in
    particular every cell of a later row, still holds the initial 0. *)
Theorem forward_fill_order (j t j' t' : nat) :
  (j < k)%nat → (j' < k)%nat → (t' < length X)%nat →
  cell (table_before X s gamma k j t) j' t'
  = if decide (j' < j ∨ (j' = j ∧ t' < t))%nat
    then cell (cost_table X s gamma k) j' t'
    else Some (mpf_of_Z 0).
Proof. apply table_before_cell. Qed.

(** [C] reads the table in column [t - 1] only. *)
Lemma C_column (C1 C2 : list (list mpf)) (j t : nat) :
  (∀ l, (l < k)%nat → cell C1 l (t - 1) = cell C2 l (t - 1)) →
  C X s gamma k C1 j t = C X s gamma k C2 j t.
Proof.
  intros Hcol. unfold C.
  destruct ((j =? 0)%nat && (t =? 0)%nat); [done|].
  destruct (t =? 0)%nat; [done|].
  assert (Hread : ∀ (Cv : list (list mpf)) l,
            (row ← py_index Cv l; c ← py_index row (t - 1);
             tau_lj ← tau X gamma l j; Ok (mpf_add c tau_lj))
            = match cell Cv l (t - 1) with
              | Some c => tau_lj ← tau X gamma l j; Ok (mpf_add c tau_lj)
              | None => Raise
              end).
  { intros Cv l. unfold cell, py_index.
    destruct (Cv !! l) as [row|]; simpl; [|done].
    by destruct (row !! (t - 1)%nat). }
  rewrite (mapM_py_ext _ (λ l, match cell C2 l (t - 1) with
                               | Some c => tau_lj ← tau X gamma l j;
                                           Ok (mpf_add c tau_lj)
                               | None => Raise
                               end) (seq 0 k)).
  2: { apply Forall_forall. intros l Hl%elem_of_seq.
       rewrite Hread, Hcol by lia. done. }
  rewrite <- (mapM_py_ext (λ l, row ← py_index C2 l; c ← py_index row (t - 1);
                                tau_lj ← tau X gamma l j; Ok (mpf_add c tau_lj))
                          _ (seq 0 k)); [done|].
  apply Forall_forall. intros l _. apply Hread.
Qed.

(** The last row obeys the recurrence on the final table: past the first
    column its cell is the emission cost plus the least of
    [C_values[l][t-1] + tau(l, k-1)] over the final values of all the
    rows, or the infinite cost when that computation raises. *)
Theorem forward_last_row (t : nat) :
  (0 < k)%nat → (0 < t)%nat → (t < length X)%nat →
  cell (cost_table X s gamma k) (k - 1) t
  = Some (try_except (C X s gamma k (cost_table X s gamma k) (k - 1) t) mpf_inf).
Proof.
  intros Hk Ht Hn. rewrite cost_table_cell by lia.
  do 2 f_equal. apply C_column. intros l Hl.
  rewrite table_before_cell by lia.
  rewrite decide_True; [done|]. lia.
Qed.
End decoder_properties.

Lemma forward_first_column_witness :
  cell (cost_table (mpf := xreal) X_three s_default gamma_default 2) 1 0
  = Some (if (1 =? 0)%nat then mpf_of_Z 0 else mpf_inf).
Proof.
  apply (forward_first_column X_three s_default gamma_default 2 1); simpl; lia.
Defined.

Lemma forward_fill_order_witness :
  cell (table_before (mpf := xreal) X_three s_default gamma_default 2 0 2) 1 1
  = if decide (1 < 0 ∨ (1 = 0 ∧ 1 < 2))%nat
    then cell (cost_table X_three s_default gamma_default 2) 1 1
    else Some (mpf_of_Z 0).
Proof.
  apply (forward_fill_order X_three s_default gamma_default 2 0 2 1 1);
    simpl; lia.
Defined.

Lemma forward_last_row_witness :
  cell (cost_table (mpf := xreal) X_three s_default gamma_default 2) (2 - 1) 2
  = Some (try_except
            (C X_three s_default gamma_default 2
               (cost_table X_three s_default gamma_default 2) (2 - 1) 2) mpf_inf).
Proof.
  apply (forward_last_row X_three s_default gamma_default 2 2); simpl; lia.
Defined.

(** ** The event-sequence builder *)

Section builder_properties.
Context `{MpMath mpf}.

Lemma event_dates_length (dist : list (Z * Z)) :
  Forall (λ yN, 0 ≤ yN.2) dist →
  Z.of_nat (length (event_dates dist)) = foldr Z.add 0 dist.*2.
Proof.
  induction 1 as [|[year N] dist HN _ IH]; [done|].
  unfold event_dates in *. simpl in *. rewrite length_app, Nat2Z.inj_add, IH.
  f_equal. destruct (Z.eqb_spec N 0) as [->|?]; [done|].
  destruct (Z.ltb_spec 1 N); [rewrite length_replicate|simpl]; lia.
Qed.

(** One gap per occurrence.  On a non-empty [dates] list and non-negative
    counts the builder does not raise; it appends one date per
    occurrence to [dates], and [X_] holds the initial gap and one gap per
    occurrence, so that both lists grow by the total count. *)
Theorem event_gaps_one_per_occurrence (dates years values : list Z) :
  dates ≠ [] → Forall (λ N, 0 ≤ N) values →
  ∃ X_ appended,
    event_gaps dates years values = Ok (X_, dates ++ appended)
    ∧ Z.of_nat (length appended) = foldr Z.add 0 (zip years values).*2
    ∧ Z.of_nat (length X_) = 1 + foldr Z.add 0 (zip years values).*2.
Proof.
  intros Hdates Hcounts.
  assert (∃ previous, last dates = Some previous) as [previous Hlast].
  { destruct (last dates) eqn:Hl; [by eauto|]. by apply last_None in Hl. }
  destruct (event_loop (zip years values) previous [mpf_of_Z 1] dates Hlast)
    as (gaps & Hloop & Hlen & _).
  exists ([mpf_of_Z 1] ++ gaps), (event_dates (zip years values)).
  split; [done|].
  rewrite <- event_dates_length by by apply Forall_zip_snd.
  split; [done|]. rewrite length_app, Hlen. simpl. lia.
Qed.

Lemma event_loop_empty_dates (dist : list (Z * Z)) (X_ : list mpf) :
  for_each occurrence dist (X_, [])
  = if forallb (λ yN : Z * Z, yN.2 =? 0) dist then Ok (X_, []) else Raise.
Proof.
  induction dist as [|[year N] dist IH]; [done|].
  cbn [for_each forallb]. unfold occurrence at 1. simpl.
  destruct (N =? 0); simpl; [apply IH|].
  by destruct (1 <? N).
Qed.

(** On an empty [dates] list the builder raises at the first entry with
    a count other than 0, where it looks up the last date; when every
    count is 0 it returns the initial gap alone and leaves the list
    empty. *)
Theorem event_gaps_empty_dates (years values : list Z) :
  event_gaps [] years values
  = if forallb (λ yN : Z * Z, yN.2 =? 0) (zip years values)
    then Ok ([mpf_of_Z 1], [])
    else Raise.
Proof. apply event_loop_empty_dates. Qed.
End builder_properties.

Lemma event_gaps_one_per_occurrence_witness :
  ∃ X_ appended,
    event_gaps (mpf := xreal) [1999] [2000; 2001; 2010] [1; 5; 1]
      = Ok (X_, [1999] ++ appended)
    ∧ Z.of_nat (length appended)
      = foldr Z.add 0 (zip [2000; 2001; 2010] [1; 5; 1]).*2
    ∧ Z.of_nat (length X_)
      = 1 + foldr Z.add 0 (zip [2000; 2001; 2010] [1; 5; 1]).*2.
Proof.
  apply (event_gaps_one_per_occurrence (mpf := xreal) [1999]).
  - discriminate.
  - repeat constructor; lia.
Defined.

(** ** The aggregator and [feature_burstness] *)

Lemma StronglySorted_le_lt (l : list Z) :
  StronglySorted Z.le l → NoDup l → StronglySorted Z.lt l.
Proof.
  induction 1 as [|d l _ IH Hall]; intros Hnodup; constructor.
  - apply IH. by apply NoDup_cons in Hnodup as [_ ?].
  - apply NoDup_cons in Hnodup as [Hd _].
    apply Forall_forall. intros d' Hd'.
    rewrite Forall_forall in Hall. specialize (Hall d' Hd').
    assert (d ≠ d') by (intros ->; done). lia.
Qed.

(** The series of the aggregator: dates in strictly ascending order, one
    score per date. *)
Lemma burst_series_sorted (k : nat) (normalize : bool) (A : gmap Z (list nat))
    (D : list Z) (scores : list Q) :
  burst_series k normalize A = Ok (D, scores) →
  StronglySorted Z.lt D ∧ length scores = length D.
Proof.
  unfold burst_series.
  destruct (mapM _ _) as [scores'|] eqn:Hscores; simpl; [|done].
  intros [= <- <-]. split.
  - set (keys := (map_to_list (bucket_score k normalize <$> A)).*1).
    assert (Hsorted : StronglySorted Z.lt (merge_sort Z.le keys)).
    { apply StronglySorted_le_lt; [apply (StronglySorted_merge_sort _)|].
      rewrite merge_sort_Permutation. apply NoDup_fst_map_to_list. }
    destruct (merge_sort Z.le keys); [constructor|].
    by apply StronglySorted_inv in Hsorted as [? _].
  - apply mapM_Ok in Hscores. symmetry. by eapply Forall2_length.
Qed.

Section series_properties.
Context `{MpMath mpf}.

(** Whenever [feature_burstness] returns a series, its dates are in
    strictly ascending order and it has one score per date. *)
Theorem feature_burstness_series_sorted (corpus : option Corpus)
    (fs f : string) (k : nat) (normalize : bool) (s gamma : mpf)
    (dates : option (list Z)) (fd : option (list Z * list Z))
    (D : list Z) (scores : list Q) (dates' : list Z) :
  feature_burstness corpus fs f k normalize s gamma dates fd
    = Ok (Some (D, scores), dates') →
  StronglySorted Z.lt D ∧ length scores = length D.
Proof.
  unfold feature_burstness.
  destruct (match dates, corpus with
            | Some dates0, _ => Ok dates0
            | None, Some corpus0 => Ok [min_date corpus0 - 1]
            | None, None => Raise
            end) as [dates0|]; simpl; [|done].
  destruct (match fd, corpus with
            | Some fd0, _ => Ok fd0
            | None, Some corpus0 => Ok (corpus_feature_distribution corpus0 fs f)
            | None, None => Raise
            end) as [[years values]|]; simpl; [|done].
  destruct (event_gaps dates0 years values) as [[X_ dates1]|]; simpl; [|done].
  destruct (_forward (scale_gaps X_) s gamma k) as [st|]; [|done].
  destruct (bin_by_date (length X_) dates1 st) as [A|]; simpl; [|done].
  destruct (burst_series k normalize A) as [[D' scores']|] eqn:Hseries;
    simpl; [|done].
  intros [= <- <- <-]. by eapply burst_series_sorted.
Qed.

(** The dates a feature is reported on.  When the padding date lies
    below every year of the distribution, a call on the list that holds
    the padding alone returns the years that have a count other than 0,
    each once, in ascending order; the padding is not among them. *)
Theorem feature_burstness_returned_dates (corpus : option Corpus)
    (fs f : string) (k : nat) (normalize : bool) (s gamma : mpf)
    (padding : Z) (years values : list Z) :
  (0 < k)%nat → Forall (λ year, padding < year) years →
  ∃ D scores,
    feature_burstness corpus fs f k normalize s gamma
      (Some [padding]) (Some (years, values))
    = Ok (Some (D, scores), padding :: event_dates (zip years values))
    ∧ D = sorted_dates (event_dates (zip years values))
    ∧ length scores = length D
    ∧ (∀ d, d ∈ D ↔ ∃ N, (d, N) ∈ zip years values ∧ N ≠ 0)
    ∧ padding ∉ D.
Proof.
  intros Hk Hpad.
  destruct (feature_burstness_Some corpus fs f k normalize s gamma
              [padding] years values Hk)
    as (X_ & st & scores & _ & HlenX & _ & _ & _ & Hrun & Hscores); [done|].
  simpl in Hrun, Hscores.
  assert (Hleast : Forall (λ d, padding < d) (event_dates (zip years values))).
  { apply Forall_forall. intros d (N & Hin & _)%event_dates_elem.
    rewrite Forall_forall in Hpad. apply Hpad.
    apply list_elem_of_lookup in Hin as [i Hi].
    apply lookup_zip_with_Some in Hi as (y & v & [= <- <-] & Hy & _).
    by eapply list_elem_of_lookup_2. }
  rewrite take_ge in Hrun, Hscores by (simpl; lia).
  rewrite sorted_dates_cons_least in Hrun, Hscores by done. simpl in Hrun, Hscores.
  exists (sorted_dates (event_dates (zip years values))), scores.
  split; [done|]. split; [done|].
  split; [symmetry; by eapply Forall2_length|]. split.
  - intros d. by rewrite sorted_dates_elem, event_dates_elem.
  - rewrite sorted_dates_elem. intros Hin.
    rewrite Forall_forall in Hleast. specialize (Hleast _ Hin). lia.
Qed.

(** A call that receives a [dates] list at least as long as its own gap
    sequence reports dates of that list only.  Whenever such a call
    returns a series, its states were binned by the first entries of the
    received list: the dates of the series are the distinct dates among
    them, in ascending order and without the least one, and none of the
    dates the call appends is read. *)
Theorem feature_burstness_dates_of_received_list (corpus : option Corpus)
    (fs f : string) (k : nat) (normalize : bool) (s gamma : mpf)
    (dates years values : list Z) (D : list Z) (scores : list Q)
    (dates' : list Z) :
  (length (event_dates (zip years values)) < length dates)%nat →
  feature_burstness corpus fs f k normalize s gamma
    (Some dates) (Some (years, values))
  = Ok (Some (D, scores), dates') →
  D = tail (sorted_dates
              (take (S (length (event_dates (zip years values)))) dates))
  ∧ length scores = length D
  ∧ dates' = dates ++ event_dates (zip years values).
Proof.
  intros Hlen Hcall.
  assert (∃ previous, last dates = Some previous) as [previous Hlast].
  { destruct (last dates) eqn:Hl; [by eauto|].
    apply last_None in Hl as ->. simpl in Hlen. lia. }
  destruct (feature_burstness_run corpus fs f k normalize s gamma
              dates years values previous Hlast)
    as (X_ & _ & HlenX & _ & Hrun).
  simpl in Hrun. rewrite Hrun in Hcall.
  destruct (_forward (scale_gaps X_) s gamma k) as [st|] eqn:Hst; [|done].
  apply forward_length in Hst. unfold scale_gaps in Hst.
  rewrite length_map in Hst.
  destruct (aggregate_Ok k normalize (length X_)
              (dates ++ event_dates (zip years values)) st)
    as (scores' & Hagg & Hscores); [rewrite length_app; lia|done|].
  destruct (bin_by_date (length X_) _ st) as [A|]; simpl in *; [|done].
  rewrite Hagg in Hcall. injection Hcall as <- <- <-.
  rewrite HlenX, take_app_le by lia.
  split; [done|]. split; [|done].
  apply Forall2_length in Hscores. by rewrite HlenX, take_app_le in Hscores by lia.
Qed.
End series_properties.

(** Scores without normalisation.  Binning and scoring return the
    distinct dates in ascending order without the least one, and with
    each of them the arithmetic mean of the states sharing that date: the
    mean of a bucket that is never empty, between 0 and the highest
    state. *)
Theorem raw_score_mean (k : nat) (dates : list Z) (st : list nat) :
  (0 < k)%nat → length st = length dates → Forall (λ j, j < k)%nat st →
  let D := tail (sorted_dates dates) in
  let score (d : Z) := mean (states_on d dates st) in
  (A ← bin_by_date (length st) dates st; burst_series k false A)
    = Ok (D, score <$> D)
  ∧ ∀ d, d ∈ D →
      states_on d dates st ≠ []
      ∧ (0 <= score d)%Q
      ∧ (score d <= inject_Z (Z.of_nat k - 1))%Q.
Proof.
  intros Hk Hlen Hst D score.
  destruct (aggregate_Ok k false (length st) dates st) as (scores & Hagg & Hscores);
    [lia|done|].
  rewrite take_ge in Hagg, Hscores by lia.
  apply Forall2_eq_fmap in Hscores. subst scores. split; [exact Hagg|].
  intros d Hd.
  assert (Hin : d ∈ dates) by by apply tail_sorted_dates_elem.
  assert (Hne : states_on d dates st ≠ []).
  { intros Hnil. by apply states_on_nil_iff in Hnil. }
  assert (Hbound : Forall (λ x, x ≤ k - 1)%nat (states_on d dates st)).
  { apply Forall_forall. intros x Hx%states_on_elem_of.
    rewrite Forall_forall in Hst. specialize (Hst x Hx). lia. }
  destruct (mean_le _ _ Hne Hbound) as [Hmean0 Hmean].
  replace (Z.of_nat (k - 1)) with (Z.of_nat k - 1) in Hmean by lia.
  done.
Qed.

Lemma feature_burstness_series_sorted_witness :
  StronglySorted Z.lt [2000; 2002]
  ∧ length [0%Q; (0 # 2)%Q] = length [2000; 2002].
Proof.
  apply (feature_burstness_series_sorted (mpf := xreal) None "citations" "x"
           1 true s_default gamma_default (Some [1999])
           (Some ([2000; 2002], [1; 2])) [2000; 2002] [0%Q; (0 # 2)%Q]
           [1999; 2000; 2002; 2002]).
  vm_compute. reflexivity.
Defined.

Lemma feature_burstness_returned_dates_witness :
  ∃ D scores,
    feature_burstness (mpf := xreal) None "citations" "x" 5 true
      s_default gamma_default (Some [1999]) (Some ([2000; 2001; 2010], [1; 0; 2]))
    = Ok (Some (D, scores),
          1999 :: event_dates (zip [2000; 2001; 2010] [1; 0; 2]))
    ∧ D = sorted_dates (event_dates (zip [2000; 2001; 2010] [1; 0; 2]))
    ∧ length scores = length D
    ∧ (∀ d, d ∈ D ↔ ∃ N, (d, N) ∈ zip [2000; 2001; 2010] [1; 0; 2] ∧ N ≠ 0)
    ∧ 1999 ∉ D.
Proof.
  apply (feature_burstness_returned_dates (mpf := xreal)).
  - lia.
  - repeat constructor; lia.
Defined.

Lemma feature_burstness_dates_of_received_list_witness :
  [2000]
  = tail (sorted_dates
            (take (S (length (event_dates (zip [2005] [1])))) [1999; 2000]))
  ∧ length [0%Q] = length [2000]
  ∧ [1999; 2000; 2005] = [1999; 2000] ++ event_dates (zip [2005] [1]).
Proof.
  apply (feature_burstness_dates_of_received_list (mpf := xreal) None
           "citations" "b" 1 true s_default gamma_default [1999; 2000]
           [2005] [1] [2000] [0%Q] [1999; 2000; 2005]).
  - simpl. lia.
  - vm_compute. reflexivity.
Defined.

Lemma raw_score_mean_witness :
  let dates := [1999; 2001; 2001; 2003] in
  let st := [0; 4; 2; 1]%nat in
  let D := tail (sorted_dates dates) in
  let score (d : Z) := mean (states_on d dates st) in
  D = [2001; 2003]
  ∧ (A ← bin_by_date 4 dates st; burst_series 5 false A) = Ok (D, score <$> D)
  ∧ ∀ d, d ∈ D →
      states_on d dates st ≠ []
      ∧ (0 <= score d)%Q
      ∧ (score d <= inject_Z (5 - 1))%Q.
Proof.
  intros dates st D score. split; [by vm_compute|].
  apply (raw_score_mean 5 dates st).
  - lia.
  - reflexivity.
  - repeat constructor; lia.
Defined.

(** ** [burstness]: the keys of the result *)

Lemma mapM_py_fmap {A B C} (g : B → py C) (h : A → B) (l : list A) :
  mapM g (h <$> l) = mapM (g ∘ h) l.
Proof.
  induction l as [|x l IH]; [done|].
  change (mapM g (h <$> x :: l))
    with (y ← g (h x); k ← mapM g (h <$> l); Ok (y :: k)).
  by rewrite IH.
Qed.

Lemma mapM_py_pure {A B} (h : A → B) (l : list A) :
  mapM (λ x, Ok (h x)) l = Ok (h <$> l).
Proof.
  induction l as [|x l IH]; [done|].
  change (mapM (λ x, Ok (h x)) (x :: l))
    with (k ← mapM (λ x, Ok (h x)) l; Ok (h x :: k)).
  by rewrite IH.
Qed.

Local Set Warnings "-clear-no-such-hyp".

Section burstness_keys.
Context `{MpMath mpf}.

(** The chunks of the fan-out, one after the other, are a prefix of the
    feature list: the first [(workers + 1) * floor(F / workers)]
    features, each once and in order. *)
Theorem fan_out_chunks_prefix (corpus : Corpus) (fs : string)
    (features : list string) (k workers : nat) (normalize : bool) :
  concat (p_features <$> params corpus fs features k workers normalize)
  = take ((workers + 1) * (length features / workers)) features.
Proof. apply params_features. Qed.

(** When the remainder of [F / workers] does not exceed the quotient, the
    chunks hold every feature exactly once. *)
Theorem fan_out_chunks_cover (corpus : Corpus) (fs : string)
    (features : list string) (k workers : nat) (normalize : bool) :
  (0 < workers)%nat →
  (length features mod workers ≤ length features / workers)%nat →
  concat (p_features <$> params corpus fs features k workers normalize)
  = features.
Proof.
  intros Hw Hrem. rewrite params_features. apply take_ge.
  pose proof (Nat.div_mod_eq (length features) workers). nia.
Qed.

(** The sequential pass never raises; the keys of its result are the
    requested features, and every feature is mapped to what a call of its
    own, on a fresh padding list, returns. *)
Theorem burstness_sequential_keys (corpus : Corpus) (fs : string)
    (features : list string) (k : nat) (normalize : bool) (s gamma : mpf) :
  features ≠ [] →
  ∃ B, burstness corpus fs features k 1 normalize s gamma = Ok B
       ∧ dom B = list_to_set features
       ∧ ∀ f, f ∈ features → ∃ result dates,
           feature_burstness (Some corpus) fs f k normalize s gamma None None
             = Ok (result, dates)
           ∧ B !! f = Some result.
Proof.
  intros Hne.
  assert (Hloop : ∀ (fs' : list string) (B0 : gmap string (option series)),
            ∃ B, for_each (λ feature (B : gmap string (option series)),
                     '(result, _) ← feature_burstness (Some corpus) fs feature k
                                      normalize s gamma None None;
                     Ok (<[feature := result]> B)) fs' B0 = Ok B
                 ∧ dom B = list_to_set fs' ∪ dom B0).
  { induction fs' as [|f0 fs' IH]; intros B0.
    { exists B0. split; [done|]. set_solver. }
    destruct (sequential_call_Ok corpus fs k normalize s gamma f0)
      as (r0 & d0 & Hcall0).
    destruct (IH (<[f0 := r0]> B0)) as (B & HB & Hdom).
    exists B. cbn [for_each]. rewrite Hcall0. simpl. split; [done|].
    rewrite Hdom, dom_insert_L. set_solver. }
  destruct (Hloop features ∅) as (B & HB & Hdom).
  destruct (sequential_loop corpus fs k normalize s gamma features ∅)
    as (B' & HB' & Hvalues).
  assert (B' = B) as -> by congruence.
  exists B. split.
  { unfold burstness. by destruct features. }
  split; [|done]. rewrite Hdom, dom_empty_L. set_solver.
Qed.

(** The loop of a worker: it does not raise on a non-empty [dates] list,
    and it adds the features of its chunk to the keys. *)
Lemma wrapper_loop_dom (p : param) (items : list (string * (list Z * list Z)))
    (B : gmap string (option series)) (dates : list Z) :
  dates ≠ [] →
  ∃ B' dates', for_each (wrapper_step p) items (B, dates) = Ok (B', dates')
               ∧ dom B' = list_to_set items.*1 ∪ dom B.
Proof.
  revert B dates. induction items as [|[f fd] items IH]; intros B dates Hdates.
  { exists B, dates. split; [done|]. set_solver. }
  destruct (feature_burstness_Ok None (p_featureset_name p) f (p_k p)
              (p_normalize p) (p_s p) (p_gamma p) dates fd Hdates)
    as [result Hcall].
  destruct (IH (<[f := result]> B) (dates ++ event_dates (zip fd.1 fd.2)))
    as (B' & dates' & HB' & Hdom).
  { by destruct dates. }
  exists B', dates'. cbn [for_each wrapper_step]. rewrite Hcall.
  cbn [mbind py_bind]. split; [done|].
  rewrite Hdom, dom_insert_L. set_solver.
Qed.

(** The fan-out with two or more workers never raises; the keys of its
    result are the features of the chunks, that is the first
    [(workers + 1) * floor(F / workers)] features of the list. *)
Theorem burstness_fan_out_keys (corpus : Corpus) (fs : string)
    (features : list string) (k workers : nat) (normalize : bool) (s gamma : mpf) :
  features ≠ [] → (1 < workers)%nat →
  ∃ B, burstness corpus fs features k workers normalize s gamma = Ok B
       ∧ dom B
         = list_to_set (take ((workers + 1) * (length features / workers))
                          features).
Proof.
  intros Hne Hw. unfold burstness.
  assert ((length features =? 0)%nat = false) as -> by by destruct features.
  cbn [mbind py_bind].
  assert ((workers =? 1)%nat = false) as -> by (apply Nat.eqb_neq; lia).
  assert ((workers =? 0)%nat = false) as -> by (apply Nat.eqb_neq; lia).
  rewrite <- (params_features corpus fs features k workers normalize).
  set (ps := params corpus fs features k workers normalize).
  assert (Hps : Forall (λ p, p_dates p ≠ []
                  ∧ length (p_features p) ≤ length (p_feature_distributions p))%nat
                  ps).
  { apply Forall_forall. intros p (i & -> & _)%list_elem_of_fmap. simpl.
    split; [done|]. by rewrite length_map. }
  assert (HBs : ∃ Bs,
            Forall2 (λ p (B : gmap string (option series)),
              ('(B', _) ← feature_burstness_wrapper p; Ok B') = Ok B
              ∧ dom B = list_to_set (p_features p)) ps Bs).
  { clear -Hps. induction Hps as [|p ps [Hd Hlen] _ (Bs & HBs)].
    { exists []. constructor. }
    destruct (wrapper_loop_dom p (zip (p_features p) (p_feature_distributions p))
                ∅ (p_dates p) Hd) as (B & d & HB & Hdom).
    exists (B :: Bs). constructor; [|done]. split.
    - unfold feature_burstness_wrapper. by rewrite HB.
    - rewrite Hdom, fst_zip, dom_empty_L by done. apply (right_id_L ∅ (∪)). }
  destruct HBs as (Bs & HBs).
  assert (mapM (λ p, '(B, _) ← feature_burstness_wrapper p; Ok B) ps = Ok Bs) as ->.
  { apply mapM_Ok. eapply Forall2_impl; [exact HBs|]. by intros p B [? _]. }
  assert (Hdoms : Forall2 (λ p (B : gmap string (option series)),
                    dom B = list_to_set (p_features p)) ps Bs).
  { eapply Forall2_impl; [exact HBs|]. by intros p B [_ ?]. }
  clear HBs.
  simpl. eexists. split; [done|].
  assert (Hfold : ∀ acc : gmap string (option series),
            dom (foldl (λ B tmp_B : gmap string (option series), tmp_B ∪ B) acc Bs)
            = list_to_set (concat (p_features <$> ps)) ∪ dom acc).
  { clear -Hdoms. induction Hdoms as [|p B ps Bs HB _ IH]; intros acc.
    { simpl. set_solver. }
    simpl. rewrite IH, dom_union_L, HB, list_to_set_app_L. set_solver. }
  rewrite Hfold, dom_empty_L. apply (right_id_L ∅ (∪)).
Qed.

End burstness_keys.

Lemma fan_out_chunks_cover_witness :
  concat (p_features <$> params (mpf := xreal) corpus_ab "citations"
                           ["a"; "b"; "c"; "d"; "e"] 5 2 true)
  = ["a"; "b"; "c"; "d"; "e"].
Proof.
  apply (fan_out_chunks_cover (mpf := xreal)); [lia|].
  vm_compute. lia.
Defined.

Lemma burstness_sequential_keys_witness :
  ∃ B, burstness (mpf := xreal) corpus_ab "citations" ["a"; "b"] 5 1 true
         s_default gamma_default = Ok B
       ∧ dom B = list_to_set ["a"; "b"]
       ∧ ∀ f, f ∈ ["a"; "b"] → ∃ result dates,
           feature_burstness (Some corpus_ab) "citations" f 5 true
             s_default gamma_default None None = Ok (result, dates)
           ∧ B !! f = Some result.
Proof.
  apply (burstness_sequential_keys (mpf := xreal)). discriminate.
Defined.

Lemma burstness_fan_out_keys_witness :
  ∃ B, burstness (mpf := xreal) corpus_ab "citations" ["a"; "b"; "c"] 5 2 true
         s_default gamma_default = Ok B
       ∧ dom B
         = list_to_set (take ((2 + 1) * (length ["a"; "b"; "c"] / 2))
                          ["a"; "b"; "c"]).
Proof.
  apply (burstness_fan_out_keys (mpf := xreal)); [discriminate|lia].
Defined.

(** ** [burstness]: where the two paths agree *)

Section one_feature_per_chunk.
Context `{MpMath mpf}.
Variables (corpus : Corpus) (fs : string) (k : nat) (normalize : bool).

(** What a call of its own returns for a feature, with the decode
    parameters written in [burstness]. *)
Local Abbreviation own_result f :=
  (match feature_burstness (Some corpus) fs f k normalize
           s_default gamma_default None None with
   | Ok (result, _) => result
   | Raise => None
   end).

Lemma sequential_fold (features : list string) (B0 : gmap string (option series)) :
  for_each (λ feature (B : gmap string (option series)),
      '(result, _) ← feature_burstness (Some corpus) fs feature k normalize
                       s_default gamma_default None None;
      Ok (<[feature := result]> B)) features B0
  = Ok (foldl (λ B f, <[f := own_result f]> B) B0 features).
Proof.
  revert B0. induction features as [|f features IH]; intros B0; [done|].
  destruct (sequential_call_Ok corpus fs k normalize s_default gamma_default f)
    as (r & d & Hcall).
  cbn [for_each foldl]. rewrite Hcall. simpl. apply IH.
Qed.

(** A worker whose chunk is a single feature returns what the sequential
    pass stores for it. *)
Lemma wrapper_single (nr : nat) (f : string) :
  ('(B, _) ← feature_burstness_wrapper
               {| p_nr := nr; p_dates := [min_date corpus - 1];
                  p_feature_distributions := [corpus_feature_distribution corpus fs f];
                  p_featureset_name := fs; p_features := [f];
                  p_k := k; p_normalize := normalize;
                  p_s := s_default; p_gamma := gamma_default |};
   Ok B)
  = Ok {[f := own_result f]}.
Proof.
  destruct (sequential_call_Ok corpus fs k normalize s_default gamma_default f)
    as (r & d & Hcall).
  assert (feature_burstness None fs f k normalize s_default gamma_default
            (Some [min_date corpus - 1])
            (Some (corpus_feature_distribution corpus fs f))
          = Ok (r, d)) as Hworker.
  { rewrite <- Hcall. unfold feature_burstness. simpl.
    by destruct (corpus_feature_distribution corpus fs f). }
  unfold feature_burstness_wrapper. cbn [zip zip_with for_each wrapper_step
    p_features p_feature_distributions p_dates p_featureset_name p_k
    p_normalize p_s p_gamma].
  rewrite Hworker, Hcall. done.
Qed.

Variable features : list string.

(** The partial map of the worker [i] when every chunk has length 1. *)
Local Abbreviation chunk_map i :=
  (match features !! i with
   | Some f => {[f := own_result f]}
   | None => (∅ : gmap string (option series))
   end).

Lemma merge_single_chunks (m a : nat) (acc : gmap string (option series)) :
  foldl (λ B tmp_B : gmap string (option series), tmp_B ∪ B) acc
    ((λ i, chunk_map i) <$> seq a m)
  = foldl (λ B f, <[f := own_result f]> B) acc (take m (drop a features)).
Proof.
  revert a acc. induction m as [|m IH]; intros a acc; [done|].
  cbn [seq fmap list_fmap foldl]. rewrite IH.
  destruct (features !! a) as [f|] eqn:Hf.
  - rewrite (drop_S _ _ _ Hf). cbn [take foldl].
    by rewrite insert_union_singleton_l.
  - apply lookup_ge_None in Hf.
    rewrite !drop_ge by lia. rewrite take_nil. simpl.
    by rewrite (left_id_L ∅ (∪)).
Qed.

(** The two paths agree when no two features share a chunk.  With two or
    more workers, chunks of length 1 and at most [workers + 1] features,
    the fan-out returns the map of the sequential pass run with the
    decode parameters 1.1 and 1; the parameters passed to the fan-out
    itself play no part. *)
Theorem burstness_one_feature_per_chunk (workers : nat) (s gamma : mpf) :
  (1 < workers)%nat →
  (length features / workers = 1)%nat →
  (length features ≤ workers + 1)%nat →
  burstness corpus fs features k workers normalize s gamma
  = burstness corpus fs features k 1 normalize s_default gamma_default.
Proof.
  intros Hw Hchunk Hcount.
  assert (Hne : (length features =? 0)%nat = false).
  { destruct features; [|done]. simpl in Hchunk.
    rewrite Nat.Div0.div_0_l in Hchunk. done. }
  unfold burstness. rewrite Hne. cbn [mbind py_bind].
  assert ((workers =? 1)%nat = false) as -> by (apply Nat.eqb_neq; lia).
  assert ((workers =? 0)%nat = false) as -> by (apply Nat.eqb_neq; lia).
  cbn [Nat.eqb]. rewrite sequential_fold.
  unfold params. rewrite Hchunk, mapM_py_fmap.
  rewrite (mapM_py_ext _ (λ i, Ok (chunk_map i))).
  2: { apply Forall_forall. intros i _. unfold compose, py_slice.
       replace ((i + 1) * 1 - i * 1)%nat with 1%nat by lia.
       replace (i * 1)%nat with i by lia.
       destruct (features !! i) as [f|] eqn:Hf.
       - rewrite (drop_S _ _ _ Hf). cbn [take map]. apply wrapper_single.
       - apply lookup_ge_None in Hf. rewrite drop_ge by lia. done. }
  rewrite mapM_py_pure. simpl. f_equal.
  rewrite merge_single_chunks, drop_0, take_ge by lia. done.
Qed.
End one_feature_per_chunk.

Lemma burstness_one_feature_per_chunk_witness :
  burstness (mpf := xreal) corpus_ab "citations" ["a"; "b"; "c"] 5 2 true
    (Fin 2) (Fin 3)
  = burstness corpus_ab "citations" ["a"; "b"; "c"] 5 1 true
      s_default gamma_default.
Proof.
  apply (burstness_one_feature_per_chunk (mpf := xreal)); simpl; lia.
Defined.

(** ** [sigma]: malformed burst maps, and the inverted result *)

Lemma for_each_raises {A S} (body : A → S → py S) (l : list A) (x : A) (s : S) :
  x ∈ l → (∀ s', body x s' = Raise) → for_each body l s = Raise.
Proof.
  intros Hin Hraise. revert s.
  induction l as [|x0 l IH]; intros s; [by apply elem_of_nil in Hin|].
  apply elem_of_cons in Hin as [->|Hin]; cbn [for_each].
  - by rewrite Hraise.
  - destruct (body x0 s); simpl; [by apply IH|done].
Qed.

Section sigma_properties.
Context {float : Type}.
Variables (float_add float_sub : float → float → float).
Variable float_pow : float → Q → float.
Variable float_one : float.
Variable betweenness_centrality : Graph → gmap nat float.

(** On a graph collection with at least one slice the loop raises as soon
    as the burst map holds a feature without a series, as [burstness]
    stores one for a feature whose decode failed, or a feature without a
    node index. *)
Theorem Sigma_rejects_malformed_feature (G : GraphCollection)
    (B : gmap string (option series)) (n_ : string) (burst : option series) :
  G_items G ≠ [] →
  B !! n_ = Some burst →
  burst = None ∨ node_lookup G !! n_ = None →
  Sigma float_add float_sub float_pow float_one betweenness_centrality G B
  = Raise.
Proof.
  intros Hslices HB Hbad. unfold Sigma.
  destruct (G_items G) as [|[key graph] items]; [done|].
  cbn [for_each].
  rewrite (for_each_raises _ (map_to_list B) (n_, burst)); [done| |].
  - by apply elem_of_map_to_list.
  - intros sigma. unfold sigma_node.
    destruct Hbad as [->|Hlookup]; [done|].
    destruct burst as [[dates scores]|]; [|done]. simpl.
    unfold py_getitem. by rewrite Hlookup.
Qed.
End sigma_properties.

Lemma Sigma_rejects_malformed_feature_witness :
  Sigma Rplus Rminus (λ c b, Rpower c (Q2R b)) 1%R centrality_two_slices
    G_two_slices {["x" := None]}
  = Raise.
Proof.
  apply (Sigma_rejects_malformed_feature Rplus Rminus (λ c b, Rpower c (Q2R b))
           1%R centrality_two_slices G_two_slices {["x" := None]} "x" None).
  - discriminate.
  - apply lookup_singleton_eq.
  - by left.
Defined.

Section inverse_properties.
Context {float : Type}.

(** Reading [inverse[n][gname]]. *)
Local Abbreviation at_ inv n g :=
  ((inv : gmap nat (gmap Z float)) !! (n : nat) ≫= λ d, d !! (g : Z)).

Lemma inverse_step (inv : gmap nat (gmap Z float)) (g g' : Z) (n n' : nat)
    (v : float) :
  at_ (<[n := <[g := v]> (default ∅ (inv !! n))]> inv) n' g'
  = if decide (n' = n ∧ g' = g) then Some v else at_ inv n' g'.
Proof.
  destruct (decide (n' = n)) as [->|Hn].
  - rewrite lookup_insert_eq. simpl.
    destruct (decide (g' = g)) as [->|Hg].
    + rewrite lookup_insert_eq. by rewrite decide_True.
    + rewrite lookup_insert_ne by done. rewrite decide_False by (intros [_ ?]; done).
      by destruct (inv !! n).
  - rewrite lookup_insert_ne by done. by rewrite decide_False by (intros [? _]; done).
Qed.

Lemma inverse_slice (g : Z) (l : list (nat * float))
    (inv : gmap nat (gmap Z float)) (n' : nat) (g' : Z) :
  NoDup l.*1 →
  at_ (foldl (λ (inverse : gmap nat (gmap Z float)) '(n, val),
          <[n := <[g := val]> (default ∅ (inverse !! n))]> inverse) inv l) n' g'
  = match (if decide (g' = g) then (list_to_map l : gmap nat float) !! n'
           else None) with
    | Some v => Some v
    | None => at_ inv n' g'
    end.
Proof.
  revert inv. induction l as [|[n v] l IH]; intros inv Hnodup.
  { simpl. by destruct (decide (g' = g)). }
  apply NoDup_cons in Hnodup as [Hfresh Hnodup].
  cbn [foldl]. rewrite IH by done. rewrite inverse_step.
  rewrite list_to_map_cons.
  destruct (decide (g' = g)) as [->|Hg].
  - destruct (decide (n' = n)) as [->|Hn].
    + rewrite lookup_insert_eq.
      rewrite (not_elem_of_list_to_map_1 l n) by done.
      by rewrite decide_True.
    + rewrite lookup_insert_ne by done.
      by rewrite decide_False by (intros [? _]; done).
  - by rewrite decide_False by (intros [_ ?]; done).
Qed.

Lemma inverse_slices (L : list (Z * gmap nat float))
    (inv : gmap nat (gmap Z float)) (n' : nat) (g' : Z) :
  NoDup L.*1 →
  at_ (foldl (λ inverse '(gname, result),
          foldl (λ (inverse : gmap nat (gmap Z float)) '(n, val),
              <[n := <[gname := val]> (default ∅ (inverse !! n))]> inverse)
            inverse (map_to_list result)) inv L) n' g'
  = match (list_to_map L : gmap Z (gmap nat float)) !! g' ≫= (λ d, d !! n') with
    | Some v => Some v
    | None => at_ inv n' g'
    end.
Proof.
  revert inv. induction L as [|[g result] L IH]; intros inv Hnodup; [done|].
  apply NoDup_cons in Hnodup as [Hfresh Hnodup].
  cbn [foldl]. rewrite IH by done.
  rewrite inverse_slice by apply NoDup_fst_map_to_list.
  rewrite list_to_map_to_list, list_to_map_cons.
  destruct (decide (g' = g)) as [->|Hg].
  - rewrite lookup_insert_eq.
    rewrite (not_elem_of_list_to_map_1 L g) by done. done.
  - rewrite lookup_insert_ne by done.
    by destruct (list_to_map L !! g' ≫= λ d, d !! n').
Qed.

(** The inversion is a transposition: [inverse[n][gname]] is
    [Sigma[gname][n]], and the one is missing exactly when the other
    is. *)
Theorem inverse_transpose (Sigma : gmap Z (gmap nat float)) (n : nat) (gname : Z) :
  inverse Sigma !! n ≫= (λ d, d !! gname)
  = Sigma !! gname ≫= (λ sigma, sigma !! n).
Proof.
  unfold inverse. rewrite inverse_slices by apply NoDup_fst_map_to_list.
  rewrite list_to_map_to_list, lookup_empty. simpl.
  by destruct (Sigma !! gname ≫= λ d, d !! n).
Qed.
End inverse_properties.

(** ** A feature that never occurs *)

Section no_occurrence.
Context `{MpMath mpf}.

Lemma event_dates_all_zero (dist : list (Z * Z)) :
  Forall (λ yN, yN.2 = 0) dist → event_dates dist = [].
Proof.
  induction 1 as [|[year N] dist HN _ IH]; [done|].
  simpl in HN. subst N. unfold event_dates in *. simpl. exact IH.
Qed.

(** A distribution without any occurrence, empty or with counts 0 only,
    is not a failure: with at least one state the call returns the empty
    series, not [None], and leaves the [dates] list as it was. *)
Theorem feature_burstness_no_occurrence (corpus : option Corpus)
    (fs f : string) (k : nat) (normalize : bool) (s gamma : mpf)
    (dates years values : list Z) :
  (0 < k)%nat → dates ≠ [] →
  Forall (λ yN, yN.2 = 0) (zip years values) →
  feature_burstness corpus fs f k normalize s gamma
    (Some dates) (Some (years, values))
  = Ok (Some ([], []), dates).
Proof.
  intros Hk Hdates Hzero.
  destruct (feature_burstness_Some corpus fs f k normalize s gamma
              dates years values Hk Hdates)
    as (X_ & st & scores & _ & HlenX & _ & _ & _ & Hrun & Hscores).
  rewrite (event_dates_all_zero _ Hzero) in *. simpl in HlenX.
  rewrite HlenX, app_nil_r in Hrun, Hscores.
  destruct dates as [|d0 dates]; [done|]. simpl in Hrun, Hscores.
  assert (sorted_dates [d0] = [d0]) as Hone.
  { unfold sorted_dates. simpl.
    rewrite (right_id_L ∅ (∪)), elements_singleton. done. }
  rewrite take_0, Hone in Hrun, Hscores. simpl in Hrun, Hscores.
  apply Forall2_nil_inv_l in Hscores as ->.
  exact Hrun.
Qed.
End no_occurrence.

Lemma feature_burstness_no_occurrence_witness :
  feature_burstness (mpf := xreal) None "citations" "c" 5 true
    s_default gamma_default (Some [1999; 2000]) (Some ([2001; 2002], [0; 0]))
  = Ok (Some ([], []), [1999; 2000]).
Proof.
  apply (feature_burstness_no_occurrence (mpf := xreal)).
  - lia.
  - discriminate.
  - repeat constructor.
Defined.
